(** * RealtimeConfig: a shallow embedding of [src/lib/index.js]

    The class [RealtimeConfig] polls a configuration file, merges every
    freshly parsed version into an accumulated object and projects the
    keys of that object as accessor properties of the instance.

    Scope of the model.
    - A JavaScript object is the finite map of its own enumerable
      properties; property order is not modelled.  The accumulated
      configuration also carries its prototype, which an assignment to
      [__proto__] changes; the values that become its prototype are taken
      to hold plain writable properties, so that no other assignment is
      refused.
    - A character of a string stands for one UTF-16 code unit below 256.
    - The collaborators the class calls ([fs], [path], [js-yaml], the
      [Function] constructor, the functions the consumer passes or
      configures, Node's [events]) are not part of the repository.
      Whatever they return or throw in one poll cycle is collected in a
      [World]; a sequence of cycles is driven by a list of worlds.
    - What is thrown is [null], [undefined] or a value whose [message] can
      be read, of which nothing else is read.
    - Functions of the consumer are called for their completion only: what
      they do to the rest of the process is outside the model.
    - The projected keys are properties of the instance itself: a key named
      [emit] or [update] replaces the method the class calls.  The store of
      the listeners, internal to [events], is kept apart from them. *)

From stdpp Require Import gmap strings list fin_maps pretty.
From Stdlib Require Import ZArith Ascii String.

Set Warnings "-register-all".

Local Open Scope Z_scope.

(** ** Values *)

Inductive Value : Type :=
  | VUndefined
  | VNull
  | VBool (b : bool)
  | VNum (n : Z)
  | VStr (s : string)
  | VFun (f : nat)                   (* a function value, named by an index *)
  | VArr (l : list Value)
  | VObj (m : gmap string Value).

(** [o.k] for an own property of an object held as a map; [undefined] when
    the map has no such key. *)
Definition get_field (o : gmap string Value) (k : string) : Value :=
  default VUndefined (o !! k).

(** A thrown value other than [null] and [undefined]; [ex.message] is all
    the watcher reads of it. *)
Record Exn : Type := Error { message : Value }.

(** What a [throw] threw. *)
Inductive Thrown : Type :=
  | Thrown_value (ex : Exn)
  | Thrown_null
  | Thrown_undefined.
Coercion Thrown_value : Exn >-> Thrown.

Inductive Completion (A : Type) : Type :=
  | Normal (a : A)
  | Throw (t : Thrown).
Arguments Normal {A} a.
Arguments Throw {A} t.

Definition is_Normal {A} (c : Completion A) : bool :=
  match c with Normal _ => true | Throw _ => false end.

(** [t.message]: a [TypeError] when [t] is [null] or [undefined], with
    the text Node gives it. *)
Definition read_message (t : Thrown) : Completion Value :=
  match t with
  | Thrown_value ex => Normal (message ex)
  | Thrown_null =>
      Throw (Error (VStr "Cannot read properties of null (reading 'message')"))
  | Thrown_undefined =>
      Throw (Error (VStr "Cannot read properties of undefined (reading 'message')"))
  end.

(** [fs.Stats], of which only [mtime] is read (milliseconds since the epoch). *)
Record Stats : Type := { mtime : Z }.

(** [Number(stat.mtime)] *)
Definition Number (t : Z) : Value := VNum t.

(** ** The world of one poll cycle *)

Record World : Type := {
  world_stat : Value → Completion Stats;       (* fs.statSync(p) *)
  world_read : Value → Completion string;      (* String(fs.readFileSync(p)) *)
  world_extname : Value → Completion string;   (* path.extname(p) *)
  world_safeLoad : string → Completion Value;  (* yaml.safeLoad(text) *)
  world_Function : string → Completion Value;  (* new Function(body)() *)
  world_call : nat → Value → Completion unit;  (* a listener called with the argument of an event *)
  world_apply : nat → list Value → Completion unit;  (* a configured function called as a method *)
  world_unhandled : Value → Exn                (* the error of an [error] event without listener *)
}.

(** ** What a cycle does to the outside, in order *)

Inductive Action : Type :=
  | StatSync (p : Value)
  | ReadFileSync (p : Value)
  | SafeLoad (text : string)
  | NewFunction (body : string)
  | Emit (type : string) (arg : Value)       (* [this.emit(type, arg)], with a function to call *)
  | Call (f : nat) (arg : Value)             (* a listener called by [emit] *)
  | Apply (f : nat) (args : list Value)      (* a configured function called in place of a method *)
  | ConsoleError (format : string) (arg : Value)
  | SetTimeout (delay : Value).

(** ** The instance *)

(** The one closure the class installs as a getter:
    [() => this[symbolConfig][key]]. *)
Inductive Closure : Type :=
  | ReadConfig (key : string).

(** An accessor property descriptor. *)
Record Descriptor : Type := {
  get : option Closure;
  set : option Closure;
  enumerable : bool;
  configurable : bool
}.

(** The prototype of the configuration object: [Object.prototype] as it is
    created, then what an assignment to [__proto__] makes it. *)
Inductive Prototype : Type :=
  | Object_prototype
  | Null_prototype
  | Value_prototype (v : Value).

Record Watcher : Type := {
  options : gmap string Value;           (* this[symbolOptions] *)
  config : gmap string Value;            (* this[symbolConfig], its own properties *)
  config_prototype : Prototype;          (* this[symbolConfig], its prototype *)
  properties : gmap string Descriptor;   (* properties defined on the instance *)
  events : gmap string (list nat)        (* the listeners, per event name *)
}.

Definition set_options (f : gmap string Value → gmap string Value) (w : Watcher) : Watcher :=
  {| options := f (options w); config := config w; config_prototype := config_prototype w;
     properties := properties w; events := events w |}.

Definition set_config (f : gmap string Value → gmap string Value) (w : Watcher) : Watcher :=
  {| options := options w; config := f (config w); config_prototype := config_prototype w;
     properties := properties w; events := events w |}.

Definition set_config_prototype (p : Prototype) (w : Watcher) : Watcher :=
  {| options := options w; config := config w; config_prototype := p;
     properties := properties w; events := events w |}.

Definition set_properties (f : gmap string Descriptor → gmap string Descriptor) (w : Watcher) : Watcher :=
  {| options := options w; config := config w; config_prototype := config_prototype w;
     properties := f (properties w); events := events w |}.

Definition set_events (f : gmap string (list nat) → gmap string (list nat)) (w : Watcher) : Watcher :=
  {| options := options w; config := config w; config_prototype := config_prototype w;
     properties := properties w; events := f (events w) |}.

(** ** A state, trace and exception monad *)

Record Outcome (A : Type) : Type := MkOutcome {
  state : Watcher;
  trace : list Action;
  result : Completion A
}.
Arguments MkOutcome {A} state trace result.
Arguments state {A} o.
Arguments trace {A} o.
Arguments result {A} o.

Definition M (A : Type) : Type := Watcher → Outcome A.

Definition ret {A} (a : A) : M A := λ w, MkOutcome w [] (Normal a).

Definition bind {A B} (m : M A) (f : A → M B) : M B := λ w,
  match m w with
  | MkOutcome w1 tr1 (Normal a) =>
      match f a w1 with
      | MkOutcome w2 tr2 r => MkOutcome w2 (tr1 ++ tr2) r
      end
  | MkOutcome w1 tr1 (Throw t) => MkOutcome w1 tr1 (Throw t)
  end.

#[export] Instance M_ret : MRet M := @ret.
#[export] Instance M_bind : MBind M := λ A B f m, bind m f.

Definition throw {A} (t : Thrown) : M A := λ w, MkOutcome w [] (Throw t).

(** [try { m } catch (ex) { h ex }] *)
Definition try_catch {A} (m : M A) (h : Thrown → M A) : M A := λ w,
  match m w with
  | MkOutcome w1 tr1 (Normal a) => MkOutcome w1 tr1 (Normal a)
  | MkOutcome w1 tr1 (Throw t) =>
      match h t w1 with
      | MkOutcome w2 tr2 r => MkOutcome w2 (tr1 ++ tr2) r
      end
  end.

Definition gets {A} (f : Watcher → A) : M A := λ w, MkOutcome w [] (Normal (f w)).
Definition modify (f : Watcher → Watcher) : M unit := λ w, MkOutcome (f w) [] (Normal tt).
Definition log (a : Action) : M unit := λ w, MkOutcome w [a] (Normal tt).
Definition complete {A} (c : Completion A) : M A := λ w, MkOutcome w [] c.

(** [list.forEach(f)] *)
Fixpoint forEach {A} (l : list A) (f : A → M unit) : M unit :=
  match l with
  | [] => ret tt
  | x :: l' => f x ;; forEach l' f
  end.

(** ** Language primitives the class uses *)

(** The own enumerable properties of a value, as [Object.keys] visits them;
    [None] for [undefined] and [null], which have none to visit.  Strings
    and arrays expose their indices, a string one per code unit. *)
Definition Object_entries (v : Value) : option (list (string * Value)) :=
  match v with
  | VUndefined | VNull => None
  | VBool _ | VNum _ | VFun _ => Some []
  | VStr s => Some (imap (λ i ch, (pretty i, VStr (String ch EmptyString))) (list_ascii_of_string s))
  | VArr l => Some (imap (λ i x, (pretty i, x)) l)
  | VObj m => Some (map_to_list m)
  end.

(** [Object.keys(v)]: a [TypeError] for [undefined] and [null]. *)
Definition Object_keys (v : Value) : Completion (list string) :=
  match Object_entries v with
  | Some es => Normal (es.*1)
  | None => Throw (Error (VStr "Cannot convert undefined or null to object"))
  end.

(** [v[key]] for an own property of a value that has properties. *)
Definition get_member (v : Value) (key : string) : Value :=
  match Object_entries v with
  | Some es => get_field (list_to_map es) key
  | None => VUndefined
  end.

(** [Object.assign(target, source)] *)
Definition Object_assign (target source : gmap string Value) : gmap string Value :=
  source ∪ target.

(** What the setter of [__proto__] that [Object.prototype] provides does
    with the configuration object: an object or [null] becomes its
    prototype, anything else is ignored. *)
Definition set_proto (v : Value) (w : Watcher) : Watcher :=
  match v with
  | VObj _ | VArr _ | VFun _ => set_config_prototype (Value_prototype v) w
  | VNull => set_config_prototype Null_prototype w
  | VUndefined | VBool _ | VNum _ | VStr _ => w
  end.

(** Whether an assignment to [__proto__] reaches that setter: it does
    unless the prototype chain ends before [Object.prototype] or holds a
    property of that name on the way. *)
Definition reaches_proto_setter (p : Prototype) : bool :=
  match p with
  | Object_prototype => true
  | Null_prototype => false
  | Value_prototype (VObj m) => negb (bool_decide (is_Some (m !! "__proto__")))
  | Value_prototype _ => true
  end.

(** [config[key] = v] (line 176).  An own property is overwritten and a
    new one is created, but for the key [__proto__], which goes to the
    setter when the object has no own property of that name and the setter
    is reached. *)
Definition assign (key : string) (v : Value) (w : Watcher) : Watcher :=
  if bool_decide (key = "__proto__") &&
     negb (bool_decide (is_Some (config w !! key))) &&
     reaches_proto_setter (config_prototype w)
  then set_proto v w
  else set_config (insert key v) w.

(** [v === Number(t)]: only a number equals a number. *)
Definition strict_equal_number (v : Value) (t : Z) : bool :=
  match v with
  | VNum n => bool_decide (n = t)
  | _ => false
  end.

(** The truth value an [if] gives to a value. *)
Definition truthy (v : Value) : bool :=
  match v with
  | VUndefined | VNull => false
  | VBool b => b
  | VNum n => negb (bool_decide (n = 0))
  | VStr s => negb (bool_decide (s = EmptyString))
  | VFun _ | VArr _ | VObj _ => true
  end.

(** The lower case of a code unit below 256: the letters A to Z and the
    capital letters of Latin-1 move up by 32. *)
Definition ascii_toLowerCase (c : ascii) : ascii :=
  let n := nat_of_ascii c in
  if (((65 <=? n) && (n <=? 90)) ||
      ((192 <=? n) && (n <=? 222) && negb (n =? 215)))%nat
  then ascii_of_nat (n + 32) else c.

(** [s.toLowerCase()] *)
Fixpoint toLowerCase (s : string) : string :=
  match s with
  | EmptyString => EmptyString
  | String c s' => String (ascii_toLowerCase c) (toLowerCase s')
  end.

(** [s.indexOf(pattern)]: the first position of [pattern] in [s], or -1. *)
Definition indexOf (s pattern : string) : Z :=
  match String.index 0 pattern s with
  | Some n => Z.of_nat n
  | None => -1
  end.

(** [Object.defineProperty(this, key, { get: g, configurable: c })].
    A property that exists keeps the attributes the descriptor leaves out;
    one that is not configurable cannot be redefined. *)
Definition Object_defineProperty (key : string) (g : Closure) (c : bool) : M unit :=
  props ← gets properties;
  match props !! key with
  | None =>
      modify (set_properties
        (insert key {| get := Some g; set := None; enumerable := false; configurable := c |}))
  | Some d =>
      if configurable d then
        modify (set_properties
          (insert key {| get := Some g; set := set d; enumerable := enumerable d; configurable := c |}))
      else throw (Error (VStr ("Cannot redefine property: " +:+ key)))
  end.

(** What a getter closure returns when called on the instance.  The key is
    an own property of the configuration for as long as the instance
    lives: line 178 visits [Object.keys(config)] and no key is removed. *)
Definition call_closure (w : Watcher) (g : Closure) : Value :=
  match g with
  | ReadConfig key => get_field (config w) key
  end.

(** What reading a property defined on the instance gives. *)
Definition read_descriptor (w : Watcher) (d : Descriptor) : Value :=
  match get d with
  | Some g => call_closure w g
  | None => VUndefined
  end.

(** Reading [this[key]]: a property defined on the instance wins, any other
    name is looked up among the [members] the instance has besides, its
    methods and what it inherits. *)
Definition get_property (members : string → Value) (w : Watcher) (key : string) : Value :=
  match properties w !! key with
  | Some d => read_descriptor w d
  | None => members key
  end.

(** Where [this.name] is found when the class calls one of its methods:
    in the class, or in a property defined on the instance. *)
Inductive Member : Type :=
  | Inherited
  | Shadowed (v : Value).

Definition resolve (w : Watcher) (name : string) : Member :=
  match properties w !! name with
  | None => Inherited
  | Some d => Shadowed (read_descriptor w d)
  end.

(** ** Collaborators, with the calls recorded *)

Definition fs_statSync (env : World) (p : Value) : M Stats :=
  log (StatSync p);; complete (world_stat env p).

Definition fs_readFileSync (env : World) (p : Value) : M string :=
  log (ReadFileSync p);; complete (world_read env p).

Definition path_extname (env : World) (p : Value) : M string :=
  complete (world_extname env p).

Definition yaml_safeLoad (env : World) (text : string) : M Value :=
  log (SafeLoad text);; complete (world_safeLoad env text).

(** [new Function(body)()] *)
Definition new_Function (env : World) (body : string) : M Value :=
  log (NewFunction body);; complete (world_Function env body).

Definition console_error (format : string) (arg : Value) : M unit :=
  log (ConsoleError format arg).

Definition setTimeout (delay : Value) : M unit :=
  log (SetTimeout delay).

(** *** EventEmitter *)

Definition listeners (w : Watcher) (type : string) : list nat :=
  default [] (events w !! type).

(** [this.on(type, f)] *)
Definition on (type : string) (f : nat) : M unit :=
  modify (λ w, set_events (insert type (listeners w type ++ [f])) w).

(** The listeners of an event called in order. *)
Definition call_listeners (env : World) (ls : list nat) (arg : Value) : M unit :=
  forEach ls (λ f, log (Call f arg);; complete (world_call env f arg)).

(** [EventEmitter.prototype.emit]: the listeners run in order and what one
    throws is not caught; an [error] event without listener throws. *)
Definition emit (env : World) (type : string) (arg : Value) : M bool :=
  log (Emit type arg);;
  ls ← gets (λ w, listeners w type);
  match ls with
  | [] =>
      if bool_decide (type = "error") then throw (world_unhandled env arg)
      else ret false
  | _ =>
      call_listeners env ls arg;;
      ret true
  end.

(** ** RealtimeConfig *)

(** [this.emit(type, arg)] as the class writes it (lines 186 and 190): the
    method of [EventEmitter], unless a projected key named [emit] has
    replaced it; then the configured value is called, when it is a
    function, and the call throws a [TypeError] when it is not. *)
Definition this_emit (env : World) (type : string) (arg : Value) : M unit :=
  m ← gets (λ w, resolve w "emit");
  match m with
  | Inherited => emit env type arg;; ret tt
  | Shadowed (VFun g) =>
      log (Emit type arg);;
      log (Apply g [VStr type; arg]);;
      complete (world_apply env g [VStr type; arg])
  | Shadowed _ => throw (Error (VStr "this.emit is not a function"))
  end.

(** The [switch] on the extension (lines 159-173). *)
Definition parse (env : World) (filename : Value) (content : string) : M Value :=
  ext ← path_extname env filename;
  let e := toLowerCase ext in
  if bool_decide (e = ".yaml") || bool_decide (e = ".yml") || bool_decide (e = ".json") then
    yaml_safeLoad env content
  else if 0 <=? indexOf content "module.exports" then
    new_Function env ("var module = {exports: {}};" +:+ content +:+ ";return module.exports")
  else
    new_Function env ("return (" +:+ content +:+ ")").

(** [update()] (lines 151-198). *)
Definition update (env : World) : M unit :=
  try_catch
    (filename ← gets (λ w, get_field (options w) "filename");
     stat ← fs_statSync env filename;
     modifyTime ← gets (λ w, get_field (options w) "modifyTime");
     if negb (strict_equal_number modifyTime (mtime stat)) then
       filename ← gets (λ w, get_field (options w) "filename");
       content ← fs_readFileSync env filename;
       filename ← gets (λ w, get_field (options w) "filename");
       c ← parse env filename content;
       modify (set_options (insert "modifyTime" (Number (mtime stat))));;
       keys ← complete (Object_keys c);
       forEach keys (λ key, modify (assign key (get_member c key)));;
       keys ← gets (λ w, (map_to_list (config w)).*1);
       forEach keys (λ key, Object_defineProperty key (ReadConfig key) true);;
       this_emit env "update" c
     else ret tt)
    (λ ex,
       msg ← complete (read_message ex);
       this_emit env "error" msg;;
       debug ← gets (λ w, get_field (options w) "debug");
       if truthy debug then
         msg ← complete (read_message ex);
         console_error "rtconfig/src/index.ts:222 Read the config error. %s" msg
       else ret tt);;
  interval ← gets (λ w, get_field (options w) "interval");
  setTimeout interval.

(** The instance before the constructor body runs. *)
Definition blank : Watcher :=
  {| options := ∅; config := ∅; config_prototype := Object_prototype;
     properties := ∅; events := ∅ |}.

(** The constructor up to its last statement (lines 111-119). *)
Definition initialize (filename : Value) (opts : option (gmap string Value)) : M unit :=
  let options := default ∅ opts in
  modify (set_options (λ _,
    Object_assign
      (<["interval" := VNum 60000]> (<["modifyTime" := VNum 0]> (<["filename" := filename]> ∅)))
      options));;
  match options !! "onupdate" with
  | Some (VFun f) => on "update" f
  | _ => ret tt
  end;;
  match options !! "onerror" with
  | Some (VFun f) => on "error" f
  | _ => ret tt
  end;;
  modify (set_config (λ _, ∅)).

(** [constructor(filename, options = {})] (lines 110-121): the first load
    is the call of [update] that ends it. *)
Definition constructor (env : World) (filename : Value) (opts : option (gmap string Value)) : M unit :=
  initialize filename opts;;
  update env.

(** [new RealtimeConfig(filename, options)] *)
Definition new_RealtimeConfig (env : World) (filename : Value) (opts : option (gmap string Value)) : Outcome unit :=
  constructor env filename opts blank.

(** [getJSON()] as the class defines it: the configuration object, given
    by its own properties. *)
Definition getJSON (w : Watcher) : gmap string Value := config w.

(** The timers that fire one after the other, one world per firing.  The
    callback of line 196 is [this.update()]: the method of the class, which
    starts the next timer when it completes, unless a projected key named
    [update] has replaced it; then the configured value is called, or the
    call throws, and either way no timer is left and the polling ends. *)
Fixpoint poll (envs : list World) : M unit :=
  match envs with
  | [] => ret tt
  | env :: rest =>
      m ← gets (λ w, resolve w "update");
      match m with
      | Inherited => update env;; poll rest
      | Shadowed (VFun g) => log (Apply g []);; complete (world_apply env g [])
      | Shadowed _ => throw (Error (VStr "this.update is not a function"))
      end
  end.

(** The states an instance goes through: built by the constructor, then
    changed by poll cycles and by listeners the consumer adds. *)
Inductive Reachable : Watcher → Prop :=
  | Reachable_new filename opts :
      Reachable (state (initialize filename opts blank))
  | Reachable_update env w :
      Reachable w → Reachable (state (update env w))
  | Reachable_on type f w :
      Reachable w → Reachable (state (on type f w)).

(** ** Reading a trace *)

(** The events emitted, in order: the calls of [this.emit] that found a
    function to call. *)
Definition emitted (tr : list Action) : list (string * Value) :=
  omap (λ a, match a with Emit type arg => Some (type, arg) | _ => None end) tr.

(** The timers started, in order. *)
Definition timers (tr : list Action) : list Value :=
  omap (λ a, match a with SetTimeout d => Some d | _ => None end) tr.

(** The files read, in order. *)
Definition reads (tr : list Action) : list Value :=
  omap (λ a, match a with ReadFileSync p => Some p | _ => None end) tr.

(** The texts handed to a parser or an evaluator, in order. *)
Definition parses (tr : list Action) : list string :=
  omap (λ a, match a with SafeLoad t => Some t | NewFunction b => Some b | _ => None end) tr.

(** The paths handed to [fs.statSync], in order. *)
Definition stats (tr : list Action) : list Value :=
  omap (λ a, match a with StatSync p => Some p | _ => None end) tr.

(** What was written with [console.error], in order. *)
Definition consoled (tr : list Action) : list (string * Value) :=
  omap (λ a, match a with ConsoleError format arg => Some (format, arg) | _ => None end) tr.

(** The listeners called and what each was called with, in order. *)
Definition calls (tr : list Action) : list (nat * Value) :=
  omap (λ a, match a with Call f arg => Some (f, arg) | _ => None end) tr.

(** An action that tells the consumer something, as opposed to one that
    consults the file system or a parser. *)
Definition notification (a : Action) : bool :=
  match a with
  | Emit _ _ | Call _ _ | Apply _ _ | ConsoleError _ _ | SetTimeout _ => true
  | StatSync _ | ReadFileSync _ | SafeLoad _ | NewFunction _ => false
  end.

(** ** The situations of a cycle *)

Definition filename_of (w : Watcher) : Value := get_field (options w) "filename".
Definition modifyTime_of (w : Watcher) : Value := get_field (options w) "modifyTime".

(** The stat succeeds and the timestamp differs from the stored one. *)
Definition changed (env : World) (w : Watcher) (st : Stats) : Prop :=
  world_stat env (filename_of w) = Normal st ∧
  strict_equal_number (modifyTime_of w) (mtime st) = false.

(** The stat, the read or the parse throws [t]. *)
Definition load_fails (env : World) (w : Watcher) (t : Thrown) : Prop :=
  world_stat env (filename_of w) = Throw t ∨
  (∃ st, changed env w st ∧ world_read env (filename_of w) = Throw t) ∨
  (∃ st content, changed env w st ∧
     world_read env (filename_of w) = Normal content ∧
     result (parse env (filename_of w) content w) = Throw t).

(** The stat, the read and the parse succeed, and the parsed value [c] has
    properties to merge. *)
Definition reloads (env : World) (w : Watcher) (st : Stats) (c : Value) : Prop :=
  changed env w st ∧
  ∃ content,
    world_read env (filename_of w) = Normal content ∧
    result (parse env (filename_of w) content w) = Normal c ∧
    is_Some (Object_entries c).

(** The stat, the read and the parse succeed: the cycle gets to line 174. *)
Definition parses_file (env : World) (w : Watcher) (st : Stats) : Prop :=
  changed env w st ∧
  ∃ content c,
    world_read env (filename_of w) = Normal content ∧
    result (parse env (filename_of w) content w) = Normal c.

(** The instance after the first loop of a reload (lines 175-177). *)
Definition merge (c : Value) (keys : list string) (w : Watcher) : Watcher :=
  foldl (λ w key, assign key (get_member c key) w) w keys.

(** The method [emit] of the instance is the one of [EventEmitter]: no
    property named [emit] is defined on the instance. *)
Definition emit_intact (w : Watcher) : Prop := properties w !! "emit" = None.

(** Every property of the instance can be redefined and has no setter. *)
Definition redefinable (w : Watcher) : Prop :=
  ∀ k d, properties w !! k = Some d → configurable d = true ∧ set d = None.

(** The property [k] is the read-only projection of [config[k]]. *)
Definition projected (w : Watcher) (k : string) : Prop :=
  ∃ d, properties w !! k = Some d ∧
       get d = Some (ReadConfig k) ∧ set d = None ∧ configurable d = true.

(** The instance exposes exactly the keys of its configuration, each as a
    read-only projection. *)
Definition exposes (w : Watcher) : Prop :=
  redefinable w ∧
  (∀ k, is_Some (config w !! k) → projected w k) ∧
  (∀ k, config w !! k = None → properties w !! k = None).

(** The two blocks of [update], named for the lemmas below. *)
Definition try_block (env : World) : M unit :=
  filename ← gets (λ w, get_field (options w) "filename");
  stat ← fs_statSync env filename;
  modifyTime ← gets (λ w, get_field (options w) "modifyTime");
  if negb (strict_equal_number modifyTime (mtime stat)) then
    filename ← gets (λ w, get_field (options w) "filename");
    content ← fs_readFileSync env filename;
    filename ← gets (λ w, get_field (options w) "filename");
    c ← parse env filename content;
    modify (set_options (insert "modifyTime" (Number (mtime stat))));;
    keys ← complete (Object_keys c);
    forEach keys (λ key, modify (assign key (get_member c key)));;
    keys ← gets (λ w, (map_to_list (config w)).*1);
    forEach keys (λ key, Object_defineProperty key (ReadConfig key) true);;
    this_emit env "update" c
  else ret tt.

Definition catch_block (env : World) (ex : Thrown) : M unit :=
  msg ← complete (read_message ex);
  this_emit env "error" msg;;
  debug ← gets (λ w, get_field (options w) "debug");
  if truthy debug then
    msg ← complete (read_message ex);
    console_error "rtconfig/src/index.ts:222 Read the config error. %s" msg
  else ret tt.

(** What a cycle asks of the file system and of the parsers after its
    stat: nothing when the stat throws or reports the stored timestamp,
    else the read and, when the read succeeds, the parse. *)
Definition cycle_io (env : World) (w : Watcher) : list Action :=
  match world_stat env (filename_of w) with
  | Throw _ => []
  | Normal st =>
      if strict_equal_number (modifyTime_of w) (mtime st) then []
      else
        ReadFileSync (filename_of w) ::
        match world_read env (filename_of w) with
        | Throw _ => []
        | Normal content => trace (parse env (filename_of w) content w)
        end
  end.

(** ** The words of the specification about file formats *)

(** [s] textually contains [pattern]. *)
Definition contains (s pattern : string) : Prop :=
  ∃ pre post, s = pre +:+ pattern +:+ post.

(** Two characters that are the same, or the same letter of the alphabet
    in its two cases. *)
Definition ascii_same_ignoring_case (a b : ascii) : bool :=
  let x := nat_of_ascii a in
  let y := nat_of_ascii b in
  ((x =? y) ||
   ((65 <=? x) && (x <=? 90) && (y =? x + 32)) ||
   ((65 <=? y) && (y <=? 90) && (x =? y + 32)))%nat.

(** Two extensions compared case-insensitively: character by character. *)
Fixpoint same_ignoring_case (a b : string) : bool :=
  match a, b with
  | EmptyString, EmptyString => true
  | String x a', String y b' => ascii_same_ignoring_case x y && same_ignoring_case a' b'
  | _, _ => false
  end.

(** The extension is one of those of the structured-markup formats. *)
Definition markup_extension (ext : string) : Prop :=
  same_ignoring_case ext ".yaml" = true ∨ same_ignoring_case ext ".yml" = true ∨
  same_ignoring_case ext ".json" = true.

(** Every code unit below 256, and the characters that no other one has as
    its lower case but their capital: what is neither a capital letter nor
    beyond 127. *)
Definition all_ascii : list ascii := ascii_of_nat <$> seq 0 256.

Definition plain (b : ascii) : bool :=
  let y := nat_of_ascii b in
  ((y <? 128) && negb ((65 <=? y) && (y <=? 90)))%nat.

Fixpoint plain_string (s : string) : bool :=
  match s with
  | EmptyString => true
  | String b s' => plain b && plain_string s'
  end.

(** On every pair of characters, the second plain, the lower case of the
    first is the second exactly when they are the same ignoring case. *)
Definition lower_case_agrees : bool :=
  forallb (λ a,
    forallb (λ b,
      implb (plain b)
        (Bool.eqb (Ascii.eqb (ascii_toLowerCase a) b) (ascii_same_ignoring_case a b)))
      all_ascii)
    all_ascii.

(** The timestamps that the successful stats of [filename] report along a
    sequence of cycles never go below [t] and never decrease. *)
Fixpoint mtimes_ascend (filename : Value) (t : Z) (envs : list World) : Prop :=
  match envs with
  | [] => True
  | env :: rest =>
      match world_stat env filename with
      | Normal st => t ≤ mtime st ∧ mtimes_ascend filename (mtime st) rest
      | Throw _ => mtimes_ascend filename t rest
      end
  end.

(** ** Sample worlds

    A disk of named files, a table for each parser and functions that
    either return or throw: enough to run the class on concrete cycles. *)

Module Sample.

Definition enoent : Exn := Error (VStr "ENOENT: no such file or directory").
Definition bad_path : Exn := Error (VStr "The path argument must be of type string").
Definition bad_yaml : Exn := Error (VStr "end of the stream or a document separator is expected").
Definition bad_token : Exn := Error (VStr "Invalid or unexpected token").

(** The last component of a path written backwards: what precedes the
    first slash once the slashes in front are dropped. *)
Fixpoint base_backwards (started : bool) (l : list ascii) : list ascii :=
  match l with
  | [] => []
  | c :: l' =>
      if bool_decide (c = "/"%char) then
        if started then [] else base_backwards false l'
      else c :: base_backwards true l'
  end.

(** The extension in a component written backwards: up to its first dot,
    when something other than the end of the component follows it. *)
Fixpoint extension_backwards (l : list ascii) : option (list ascii) :=
  match l with
  | [] => None
  | c :: l' =>
      if bool_decide (c = "."%char) then
        match l' with
        | [] => None
        | _ => Some [c]
        end
      else cons c <$> extension_backwards l'
  end.

(** [path.extname] of the POSIX flavour: from the last dot of the last
    component on; empty when that component has no dot, starts with its
    only dot or is [..]. *)
Definition extname (s : string) : string :=
  let base := base_backwards false (rev (list_ascii_of_string s)) in
  if bool_decide (base = ["."; "."]%char) then EmptyString
  else
    match extension_backwards base with
    | Some e => string_of_list_ascii (rev e)
    | None => EmptyString
    end.

Definition on_path {A} (p : Value) (k : string → Completion A) : Completion A :=
  match p with
  | VStr s => k s
  | _ => Throw bad_path
  end.

Definition lookup_or {A} (ex : Exn) (o : option A) : Completion A :=
  match o with
  | Some a => Normal a
  | None => Throw ex
  end.

(** [disk] maps a file name to its modification time and content, [yaml]
    and [scripts] map a text to what it evaluates to, [calls] tells how the
    function of each index completes. *)
Definition world (disk : gmap string (Z * string)) (yaml scripts : gmap string Value)
    (calls : nat → Completion unit) : World :=
  {| world_stat := λ p, on_path p (λ s, lookup_or enoent ((λ f, {| mtime := f.1 |}) <$> disk !! s));
     world_read := λ p, on_path p (λ s, lookup_or enoent (snd <$> disk !! s));
     world_extname := λ p, on_path p (λ s, Normal (extname s));
     world_safeLoad := λ text, lookup_or bad_yaml (yaml !! text);
     world_Function := λ body, lookup_or bad_token (scripts !! body);
     world_call := λ f _, calls f;
     world_apply := λ f _, calls f;
     world_unhandled := λ arg, Error (VArr [VStr "Unhandled error."; arg]) |}.

Definition host_v1 : Value := VObj {[ "host" := VStr "192.168.0.101" ]}.
Definition port_v2 : Value := VObj {[ "port" := VNum 3309 ]}.

Definition yaml : gmap string Value :=
  <["host: 192.168.0.101" := host_v1]> (<["port: 3309" := port_v2]> ∅).

Definition scripts : gmap string Value :=
  <["var module = {exports: {}};module.exports = { port: 3309 };return module.exports" := port_v2]>
    (<["return ({ port: 3309 })" := port_v2]> ∅).

Definition quiet : nat → Completion unit := λ _, Normal tt.

(** [app.yaml] as first written, at time 1000. *)
Definition first (calls : nat → Completion unit) : World :=
  world {[ "app.yaml" := (1000, "host: 192.168.0.101") ]} yaml scripts calls.
(** [app.yaml] rewritten at time 2000. *)
Definition second (calls : nat → Completion unit) : World :=
  world {[ "app.yaml" := (2000, "port: 3309") ]} yaml scripts calls.
(** [app.yaml] replaced by an older file, of time 500. *)
Definition older (calls : nat → Completion unit) : World :=
  world {[ "app.yaml" := (500, "port: 3309") ]} yaml scripts calls.
(** [app.yaml] with a content that does not parse, at time 3000. *)
Definition broken (calls : nat → Completion unit) : World :=
  world {[ "app.yaml" := (3000, "host: [") ]} yaml scripts calls.
(** [app.yaml] removed. *)
Definition gone (calls : nat → Completion unit) : World :=
  world ∅ yaml scripts calls.

(** An instance without listeners, before and after its first load. *)
Definition fresh : Watcher := state (initialize (VStr "app.yaml") None blank).
Definition loaded : Watcher := state (update (first quiet) fresh).

(** An instance with listener 1 on [update] and listener 2 on [error]. *)
Definition handlers : gmap string Value :=
  <["onupdate" := VFun 1]> (<["onerror" := VFun 2]> ∅).
Definition fresh_h : Watcher := state (initialize (VStr "app.yaml") (Some handlers) blank).
Definition loaded_h : Watcher := state (update (first quiet) fresh_h).

(** The life of the instance without listeners: built on the first world,
    then polled. *)
Definition born : Outcome unit :=
  new_RealtimeConfig (first quiet) (VStr "app.yaml") None.

(** The instance with listeners after [app.yaml] is rewritten, and the
    cycles the examples run on them. *)
Definition reloaded : Watcher := state (update (second quiet) loaded).
Definition replaced_by_older : Outcome unit := update (older quiet) reloaded.

(** Options that name another file, another interval and another initial
    timestamp than the defaults. *)
Definition overriding : gmap string Value :=
  <["filename" := VStr "app.yaml"]> (<["interval" := VNum 500]> (<["modifyTime" := VNum 1000]> ∅)).

End Sample.

(** ** Sample worlds for the edges *)

Module Edge.

(** The YAML table of [Sample], with an empty document, a scalar, and two
    documents whose keys are names the objects of the class have a use
    for. *)
Definition own_proto : Value := VObj {[ "__proto__" := VNum 1 ]}.
Definition own_emit : Value := VObj {[ "emit" := VNum 1 ]}.
Definition own_update : Value := VObj {[ "update" := VNum 1 ]}.

Definition yaml : gmap string Value :=
  <[EmptyString := VUndefined]> (<["42" := VNum 42]>
    (<["__proto__: 1" := own_proto]> (<["emit: 1" := own_emit]>
      (<["update: 1" := own_update]> Sample.yaml)))).

(** [app.yaml] emptied at time 3000. *)
Definition emptied (calls : nat → Completion unit) : World :=
  Sample.world {[ "app.yaml" := (3000, EmptyString) ]} yaml Sample.scripts calls.
(** [app.yaml] holding the scalar 42, at time 3000. *)
Definition scalar (calls : nat → Completion unit) : World :=
  Sample.world {[ "app.yaml" := (3000, "42") ]} yaml Sample.scripts calls.
(** [app.yaml] with the timestamp of the epoch. *)
Definition epoch (calls : nat → Completion unit) : World :=
  Sample.world {[ "app.yaml" := (0, "host: 192.168.0.101") ]} yaml Sample.scripts calls.
(** [app.yaml] with a key [emit], at time 3000. *)
Definition shadowing (calls : nat → Completion unit) : World :=
  Sample.world {[ "app.yaml" := (3000, "emit: 1") ]} yaml Sample.scripts calls.
(** [App.YAML], an extension in capitals, at time 1000. *)
Definition capitals (calls : nat → Completion unit) : World :=
  Sample.world {[ "App.YAML" := (1000, "port: 3309") ]} yaml Sample.scripts calls.


(** A world in which listener 1, of [update], throws [null]. *)
Definition null_listener : World :=
  let files := Sample.second Sample.quiet in
  {| world_stat := world_stat files;
     world_read := world_read files;
     world_extname := world_extname files;
     world_safeLoad := world_safeLoad files;
     world_Function := world_Function files;
     world_call := λ f _, if bool_decide (f = 1%nat) then Throw Thrown_null else Normal tt;
     world_apply := world_apply files;
     world_unhandled := world_unhandled files |}.


Definition fresh_capitals : Watcher :=
  state (initialize (VStr "App.YAML") None blank).

(** The instance with listeners after a file with a key [emit] is loaded. *)
Definition shadowed_h : Watcher :=
  state (update (shadowing Sample.quiet) Sample.loaded_h).


(** Options with the debug flag and a listener of [error]. *)
Definition debugging : gmap string Value :=
  <["debug" := VBool true]> (<["onerror" := VFun 2]> ∅).
Definition loaded_d : Watcher :=
  state (update (Sample.first Sample.quiet)
           (state (initialize (VStr "app.yaml") (Some debugging) blank))).

(** The members an instance has besides: its method [getJSON], here. *)
Definition members : string → Value :=
  λ name, if bool_decide (name = "getJSON") then VFun 100 else VUndefined.

End Edge.

(* ================================================================== *)
(** * Lemmas *)

Ltac run :=
  cbv [update try_block catch_block parse constructor new_RealtimeConfig emit on
       fs_statSync fs_readFileSync path_extname
       yaml_safeLoad new_Function console_error setTimeout
       try_catch mbind mret M_bind M_ret bind ret throw gets modify log complete];
  cbn [state trace result app].

#[local] Arguments call_listeners : simpl never.
#[local] Arguments emit : simpl never.
#[local] Arguments this_emit : simpl never.
#[local] Arguments parse : simpl never.
#[local] Arguments catch_block : simpl never.
#[local] Arguments try_block : simpl never.
#[local] Arguments update : simpl never.
#[local] Arguments Object_defineProperty : simpl never.
#[local] Arguments assign : simpl never.

Lemma bind_run {A B} (m : M A) (f : A → M B) w :
  (m ≫= f) w =
    match result (m w) with
    | Normal a =>
        MkOutcome (state (f a (state (m w))))
          (trace (m w) ++ trace (f a (state (m w))))
          (result (f a (state (m w))))
    | Throw t => MkOutcome (state (m w)) (trace (m w)) (Throw t)
    end.
Proof.
  cbv [mbind M_bind bind].
  destruct (m w) as [w1 tr1 [a|t]]; cbn; [destruct (f a w1)|]; done.
Qed.

Lemma try_catch_run {A} (m : M A) (h : Thrown → M A) w :
  try_catch m h w =
    match result (m w) with
    | Normal a => MkOutcome (state (m w)) (trace (m w)) (Normal a)
    | Throw t =>
        MkOutcome (state (h t (state (m w))))
          (trace (m w) ++ trace (h t (state (m w))))
          (result (h t (state (m w))))
    end.
Proof.
  cbv [try_catch].
  destruct (m w) as [w1 tr1 [a|t]]; cbn; [|destruct (h t w1)]; done.
Qed.

Lemma update_blocks env :
  update env =
    (try_catch (try_block env) (catch_block env);;
     interval ← gets (λ w, get_field (options w) "interval");
     setTimeout interval).
Proof. reflexivity. Qed.

Lemma omap_all_None {A B} (f : A → option B) (l : list A) :
  Forall (λ a, f a = None) l → omap f l = [].
Proof. induction 1 as [|a l Ha _ IH]; [done|]. cbn. by rewrite Ha. Qed.

Lemma emitted_app tr1 tr2 : emitted (tr1 ++ tr2) = emitted tr1 ++ emitted tr2.
Proof. apply omap_app. Qed.

Lemma timers_app tr1 tr2 : timers (tr1 ++ tr2) = timers tr1 ++ timers tr2.
Proof. apply omap_app. Qed.

Lemma reads_app tr1 tr2 : reads (tr1 ++ tr2) = reads tr1 ++ reads tr2.
Proof. apply omap_app. Qed.

Lemma parses_app tr1 tr2 : parses (tr1 ++ tr2) = parses tr1 ++ parses tr2.
Proof. apply omap_app. Qed.

Lemma stats_app tr1 tr2 : stats (tr1 ++ tr2) = stats tr1 ++ stats tr2.
Proof. apply omap_app. Qed.

Lemma consoled_app tr1 tr2 : consoled (tr1 ++ tr2) = consoled tr1 ++ consoled tr2.
Proof. apply omap_app. Qed.


(** Notifications consult neither the file system nor a parser. *)
Lemma notifications_no_io tr :
  Forall (λ a, notification a = true) tr →
  stats tr = [] ∧ reads tr = [] ∧ parses tr = [].
Proof.
  intros H. split_and!; apply omap_all_None; eapply Forall_impl; try exact H;
    by intros [].
Qed.

(** *** Listener calls *)

Lemma call_listeners_cons env f ls arg :
  call_listeners env (f :: ls) arg =
    ((log (Call f arg);; complete (world_call env f arg));; call_listeners env ls arg).
Proof. reflexivity. Qed.

Lemma call_listeners_state env ls arg w :
  state (call_listeners env ls arg w) = w.
Proof.
  induction ls as [|f ls IH]; [done|].
  rewrite call_listeners_cons. run.
  destruct (world_call env f arg); cbn; [|done].
  destruct (call_listeners env ls arg w); cbn in *; intuition congruence.
Qed.

Lemma call_listeners_emitted env ls arg w :
  emitted (trace (call_listeners env ls arg w)) = [].
Proof.
  induction ls as [|f ls IH]; [done|].
  rewrite call_listeners_cons. run.
  destruct (world_call env f arg); cbn; [|done].
  destruct (call_listeners env ls arg w); cbn in *; intuition congruence.
Qed.

Lemma call_listeners_timers env ls arg w :
  timers (trace (call_listeners env ls arg w)) = [].
Proof.
  induction ls as [|f ls IH]; [done|].
  rewrite call_listeners_cons. run.
  destruct (world_call env f arg); cbn; [|done].
  destruct (call_listeners env ls arg w); cbn in *; intuition congruence.
Qed.

Lemma call_listeners_notifications env ls arg w :
  Forall (λ a, notification a = true) (trace (call_listeners env ls arg w)).
Proof.
  induction ls as [|f ls IH]; [by constructor|].
  rewrite call_listeners_cons. run.
  destruct (world_call env f arg); cbn; [|by repeat constructor].
  destruct (call_listeners env ls arg w); cbn in *. by constructor.
Qed.

Lemma call_listeners_consoled env ls arg w :
  consoled (trace (call_listeners env ls arg w)) = [].
Proof.
  induction ls as [|f ls IH]; [done|].
  rewrite call_listeners_cons. run.
  destruct (world_call env f arg); cbn; [|done].
  destruct (call_listeners env ls arg w); cbn in *; done.
Qed.



(** *** [emit] *)

Lemma emit_state env type arg w : state (emit env type arg w) = w.
Proof.
  unfold emit. rewrite bind_run. cbn. rewrite bind_run. cbn.
  destruct (listeners w type) as [|f ls] eqn:E.
  - unfold throw, mret, M_ret, ret. case_bool_decide; done.
  - rewrite bind_run. destruct (result (call_listeners _ _ _ _)); cbn;
      apply call_listeners_state.
Qed.

(** [emit] records the event, then calls the listeners. *)
Lemma emit_trace env type arg w :
  trace (emit env type arg w) =
    Emit type arg :: trace (call_listeners env (listeners w type) arg w).
Proof.
  unfold emit. rewrite bind_run. cbn. rewrite bind_run. cbn.
  destruct (listeners w type) as [|f ls] eqn:E.
  - unfold throw, mret, M_ret, ret. case_bool_decide; done.
  - rewrite bind_run. destruct (result (call_listeners _ _ _ _)); cbn;
      by rewrite ?app_nil_r.
Qed.

Lemma emit_emitted env type arg w :
  emitted (trace (emit env type arg w)) = [(type, arg)].
Proof. rewrite emit_trace. cbn. by rewrite call_listeners_emitted. Qed.

Lemma emit_timers env type arg w :
  timers (trace (emit env type arg w)) = [].
Proof. rewrite emit_trace. cbn. apply call_listeners_timers. Qed.

Lemma emit_consoled env type arg w : consoled (trace (emit env type arg w)) = [].
Proof. rewrite emit_trace. cbn. apply call_listeners_consoled. Qed.

Lemma emit_notifications env type arg w :
  Forall (λ a, notification a = true) (trace (emit env type arg w)).
Proof. rewrite emit_trace. constructor; [done|apply call_listeners_notifications]. Qed.




(** *** [this.emit] *)

(** The call of [this.emit], by what the name resolves to. *)
Lemma this_emit_cases env type arg w :
  this_emit env type arg w =
    match resolve w "emit" with
    | Inherited =>
        MkOutcome w (trace (emit env type arg w))
          match result (emit env type arg w) with
          | Normal _ => Normal tt
          | Throw t => Throw t
          end
    | Shadowed (VFun g) =>
        MkOutcome w [Emit type arg; Apply g [VStr type; arg]]
          (world_apply env g [VStr type; arg])
    | Shadowed _ => MkOutcome w [] (Throw (Error (VStr "this.emit is not a function")))
    end.
Proof.
  unfold this_emit. rewrite bind_run. cbn [gets state trace result app].
  destruct (resolve w "emit") as [|[]]; try reflexivity.
  rewrite bind_run. pose proof (emit_state env type arg w) as Hs.
  destruct (emit env type arg w) as [w1 tr1 [b|t]]; cbn in *; subst;
    by rewrite ?app_nil_r.
Qed.

(** With no property named [emit] on the instance, [this.emit] is the
    method of [EventEmitter]. *)
Lemma this_emit_intact env type arg w :
  emit_intact w →
  this_emit env type arg w =
    MkOutcome w (trace (emit env type arg w))
      match result (emit env type arg w) with
      | Normal _ => Normal tt
      | Throw t => Throw t
      end.
Proof. intros H. rewrite this_emit_cases. unfold resolve. by rewrite H. Qed.

Lemma this_emit_state env type arg w : state (this_emit env type arg w) = w.
Proof. rewrite this_emit_cases. by destruct (resolve w "emit") as [|[]]. Qed.

Lemma this_emit_notifications env type arg w :
  Forall (λ a, notification a = true) (trace (this_emit env type arg w)).
Proof.
  rewrite this_emit_cases.
  destruct (resolve w "emit") as [|[]]; cbn [trace]; try by repeat constructor.
  apply emit_notifications.
Qed.

(** The call records the event unless [emit] is not a function any more;
    then it throws with nothing done. *)
Lemma this_emit_emitted env type arg w :
  emitted (trace (this_emit env type arg w)) = [(type, arg)] ∨
  this_emit env type arg w =
    MkOutcome w [] (Throw (Error (VStr "this.emit is not a function"))).
Proof.
  rewrite this_emit_cases.
  destruct (resolve w "emit") as [|[]]; cbn [trace]; try (by right); left; try done.
  apply emit_emitted.
Qed.

Lemma this_emit_timers env type arg w :
  timers (trace (this_emit env type arg w)) = [].
Proof.
  rewrite this_emit_cases.
  destruct (resolve w "emit") as [|[]]; cbn [trace]; try done. apply emit_timers.
Qed.

Lemma this_emit_consoled env type arg w :
  consoled (trace (this_emit env type arg w)) = [].
Proof.
  rewrite this_emit_cases.
  destruct (resolve w "emit") as [|[]]; cbn [trace]; try done. apply emit_consoled.
Qed.

(** *** The [catch] block *)

(** What was thrown is [null] or [undefined]: reading its message throws,
    and the block has done nothing. *)
Lemma catch_block_nullish env t e w :
  read_message t = Throw e →
  catch_block env t w = MkOutcome w [] (Throw e).
Proof. intros H. unfold catch_block. rewrite bind_run. unfold complete. by rewrite H. Qed.

(** What was thrown has a message: the block calls [this.emit] with it and
    then, when the call completes and the debug flag is set, writes to the
    console. *)
Lemma catch_block_value env (ex : Exn) w :
  catch_block env ex w =
    MkOutcome w
      (trace (this_emit env "error" (message ex) w) ++
       if is_Normal (result (this_emit env "error" (message ex) w)) &&
          truthy (get_field (options w) "debug")
       then [ConsoleError "rtconfig/src/index.ts:222 Read the config error. %s" (message ex)]
       else [])
      (result (this_emit env "error" (message ex) w)).
Proof.
  unfold catch_block. rewrite bind_run. cbn [read_message complete state trace result app].
  rewrite bind_run. pose proof (this_emit_state env "error" (message ex) w) as Hs.
  destruct (this_emit env "error" (message ex) w) as [w1 tr1 [[]|t]];
    cbn [state trace result is_Normal andb] in *; subst; [|by rewrite app_nil_r].
  run. destruct (truthy _); cbn; by rewrite ?app_nil_r.
Qed.

Lemma read_message_cases t :
  (∃ ex, t = Thrown_value ex) ∨ (∃ e : Exn, read_message t = Throw e).
Proof. destruct t; [left|right|right]; by eexists. Qed.

Lemma catch_block_state env t w : state (catch_block env t w) = w.
Proof.
  destruct (read_message_cases t) as [[ex ->]|[e He]].
  - by rewrite catch_block_value.
  - by rewrite (catch_block_nullish _ _ _ _ He).
Qed.

Lemma catch_block_timers env t w : timers (trace (catch_block env t w)) = [].
Proof.
  destruct (read_message_cases t) as [[ex ->]|[e He]].
  - rewrite catch_block_value. cbn [trace]. rewrite timers_app, this_emit_timers.
    by destruct (_ && _).
  - by rewrite (catch_block_nullish _ _ _ _ He).
Qed.

Lemma catch_block_notifications env t w :
  Forall (λ a, notification a = true) (trace (catch_block env t w)).
Proof.
  destruct (read_message_cases t) as [[ex ->]|[e He]].
  - rewrite catch_block_value. cbn [trace]. apply Forall_app.
    split; [apply this_emit_notifications|]. destruct (_ && _); by repeat constructor.
  - by rewrite (catch_block_nullish _ _ _ _ He).
Qed.

(** The block emits at most the [error] event with the message of what was
    thrown. *)
Lemma catch_block_emitted env t w :
  emitted (trace (catch_block env t w)) = [] ∨
  ∃ ex, t = Thrown_value ex ∧
        emitted (trace (catch_block env t w)) = [("error", message ex)].
Proof.
  destruct (read_message_cases t) as [[ex ->]|[e He]].
  - rewrite catch_block_value. cbn [trace]. rewrite emitted_app.
    assert (∀ b : bool, emitted (if b
      then [ConsoleError "rtconfig/src/index.ts:222 Read the config error. %s" (message ex)]
      else []) = []) as -> by (by intros []).
    rewrite app_nil_r.
    destruct (this_emit_emitted env "error" (message ex) w) as [->| ->]; [right; eauto|by left].
  - left. by rewrite (catch_block_nullish _ _ _ _ He).
Qed.

(** *** [parse] *)

Lemma parse_state env f content w : state (parse env f content w) = w.
Proof.
  run. destruct (world_extname env f) as [ext|ex]; cbn; [|done].
  destruct (_ || _); [|destruct (0 <=? _)]; cbn; try done;
    first [destruct (world_safeLoad _ _) | destruct (world_Function _ _)]; done.
Qed.

(** [parse] asks one parser, once, or none when the extension cannot be
    taken. *)
Lemma parse_trace env f content w :
  trace (parse env f content w) = [] ∨
  trace (parse env f content w) = [SafeLoad content] ∨
  ∃ body, trace (parse env f content w) = [NewFunction body].
Proof.
  unfold parse. run. destruct (world_extname env f) as [ext|ex]; cbn; [|by left].
  right.
  destruct (_ || _); [|destruct (0 <=? _)]; cbn;
    try first [destruct (world_safeLoad _ _) | destruct (world_Function _ _)]; eauto.
Qed.

Lemma parse_quiet env f content w :
  emitted (trace (parse env f content w)) = [] ∧
  timers (trace (parse env f content w)) = [] ∧
  reads (trace (parse env f content w)) = [].
Proof. by destruct (parse_trace env f content w) as [->|[->|[body ->]]]. Qed.


Lemma parse_indep env f content w w' :
  result (parse env f content w) = result (parse env f content w') ∧
  trace (parse env f content w) = trace (parse env f content w').
Proof.
  run. destruct (world_extname env f) as [ext|ex]; cbn; [|done].
  destruct (_ || _); [|destruct (0 <=? _)]; cbn; try done;
    first [destruct (world_safeLoad _ _) | destruct (world_Function _ _)]; done.
Qed.

(** *** The merge of a reload (lines 175-177) *)

Lemma assign_frame key v w :
  options (assign key v w) = options w ∧
  properties (assign key v w) = properties w ∧
  events (assign key v w) = events w.
Proof. unfold assign. destruct (_ && _); [by destruct v|done]. Qed.

(** An assignment leaves the other keys alone. *)
Lemma assign_other key v w k :
  k ≠ key → config (assign key v w) !! k = config w !! k.
Proof.
  intros Hne. unfold assign. destruct (_ && _); [by destruct v|].
  cbn. by rewrite lookup_insert_ne.
Qed.

(** An assignment stores the value, but for a key [__proto__] that the
    configuration does not have. *)
Lemma assign_stores key v w :
  key ≠ "__proto__" ∨ is_Some (config w !! key) →
  config (assign key v w) !! key = Some v.
Proof.
  intros H. unfold assign.
  destruct (bool_decide (key = "__proto__")) eqn:E1; cbn [andb];
    [|cbn; by rewrite lookup_insert_eq].
  destruct (bool_decide (is_Some (config w !! key))) eqn:E2; cbn [andb negb];
    [cbn; by rewrite lookup_insert_eq|].
  apply bool_decide_eq_true in E1. apply bool_decide_eq_false in E2. tauto.
Qed.

Lemma assign_keeps key v w k :
  is_Some (config w !! k) → is_Some (config (assign key v w) !! k).
Proof.
  intros Hk. destruct (decide (k = key)) as [->|Hne].
  - rewrite assign_stores; [done|by right].
  - by rewrite assign_other.
Qed.

Lemma merge_cons c key keys w :
  merge c (key :: keys) w = merge c keys (assign key (get_member c key) w).
Proof. reflexivity. Qed.

Lemma merge_frame c keys w :
  options (merge c keys w) = options w ∧
  properties (merge c keys w) = properties w ∧
  events (merge c keys w) = events w.
Proof.
  revert w. induction keys as [|key keys IH]; intros w; [done|].
  rewrite merge_cons. destruct (IH (assign key (get_member c key) w)) as (-> & -> & ->).
  apply assign_frame.
Qed.

(** The keys that are not visited keep their value. *)
Lemma merge_other c keys w k :
  k ∉ keys → config (merge c keys w) !! k = config w !! k.
Proof.
  revert w. induction keys as [|key keys IH]; intros w Hn; [done|].
  apply not_elem_of_cons in Hn as [Hne Hn].
  rewrite merge_cons, IH by done. by apply assign_other.
Qed.

(** No key is removed. *)
Lemma merge_keeps c keys w k :
  is_Some (config w !! k) → is_Some (config (merge c keys w) !! k).
Proof.
  revert w. induction keys as [|key keys IH]; intros w Hk; [done|].
  rewrite merge_cons. by apply IH, assign_keeps.
Qed.




(** The merge and the stored timestamp do not meet. *)
Lemma merge_set_options c keys f w :
  merge c keys (set_options f w) = set_options f (merge c keys w).
Proof.
  revert w. induction keys as [|key keys IH]; intros w; [done|].
  rewrite !merge_cons, <- IH. f_equal.
  unfold assign. cbn [config config_prototype set_options].
  destruct (_ && _); [by destruct (get_member c key)|done].
Qed.

Lemma forEach_merge c keys w :
  forEach keys (λ key, modify (assign key (get_member c key))) w =
    MkOutcome (merge c keys w) [] (Normal tt).
Proof.
  revert w. induction keys as [|k keys IH]; intros w; [done|].
  cbn [forEach]. rewrite bind_run.
  change (modify ?f w) with (MkOutcome (f w) [] (Normal tt)). cbn [state trace result].
  by rewrite !IH.
Qed.

(** *** The projection of the keys (lines 178-185) *)

(** The second loop never changes anything but the properties. *)
Lemma forEach_define_frame keys w :
  let o := forEach keys (λ key, Object_defineProperty key (ReadConfig key) true) w in
  trace o = [] ∧ options (state o) = options w ∧
  config (state o) = config w ∧ events (state o) = events w.
Proof.
  revert w. induction keys as [|k keys IH]; intros w; [done|].
  cbn [forEach]. rewrite bind_run.
  assert (∃ w1 r, Object_defineProperty k (ReadConfig k) true w = MkOutcome w1 [] r ∧
            options w1 = options w ∧ config w1 = config w ∧ events w1 = events w)
    as (w1 & r & -> & Ho & Hc & He).
  { unfold Object_defineProperty. run.
    destruct (properties w !! k) as [d|]; [destruct (configurable d)|]; cbn; eauto 10. }
  cbn. destruct r; cbn; [|done].
  destruct (IH w1) as (-> & -> & -> & ->). done.
Qed.

(** On an instance whose properties can be redefined, the second loop
    completes and makes every visited key a read-only projection. *)
Lemma forEach_define keys w :
  redefinable w →
  ∃ w',
    forEach keys (λ key, Object_defineProperty key (ReadConfig key) true) w =
      MkOutcome w' [] (Normal tt) ∧
    redefinable w' ∧
    (∀ k, k ∈ keys → projected w' k) ∧
    (∀ k, k ∉ keys → properties w' !! k = properties w !! k).
Proof.
  revert w. induction keys as [|k keys IH]; intros w Hw.
  - exists w. split_and!; [done|done| |done]. intros k Hk. by apply elem_of_nil in Hk.
  - cbn [forEach]. rewrite bind_run.
    assert (∃ d, Object_defineProperty k (ReadConfig k) true w =
                   MkOutcome (set_properties (insert k d) w) [] (Normal tt) ∧
                 get d = Some (ReadConfig k) ∧ set d = None ∧ configurable d = true)
      as (d & -> & Hg & Hs & Hc).
    { unfold Object_defineProperty. run.
      destruct (properties w !! k) as [d|] eqn:E.
      - destruct (Hw _ _ E) as [-> Hset]. cbn. eexists. split; [done|]. cbn. done.
      - cbn. eexists. split; [done|]. cbn. done. }
    cbn [state trace result].
    destruct (IH (set_properties (insert k d) w)) as (w' & -> & Hw' & Hin & Hout).
    { intros k' d'. cbn. rewrite lookup_insert. case_decide.
      - intros [= <-]. done.
      - apply Hw. }
    exists w'. split_and!; [done|done| |].
    + intros k' Hk'. destruct (decide (k' ∈ keys)) as [|Hn]; [by apply Hin|].
      apply elem_of_cons in Hk' as [->|]; [|done].
      exists d. rewrite (Hout _ Hn). cbn. rewrite lookup_insert_eq. done.
    + intros k' Hk'. apply not_elem_of_cons in Hk' as [Hne Hn].
      rewrite (Hout _ Hn). cbn. by rewrite lookup_insert_ne.
Qed.

(** *** [update], from its two blocks *)

Lemma update_cases env w :
  let o := try_block env w in
  let timer := SetTimeout (get_field (options (state o)) "interval") in
  update env w =
    match result o with
    | Normal _ => MkOutcome (state o) (trace o ++ [timer]) (Normal tt)
    | Throw t =>
        let o' := catch_block env t (state o) in
        match result o' with
        | Normal _ => MkOutcome (state o) (trace o ++ trace o' ++ [timer]) (Normal tt)
        | Throw t' => MkOutcome (state o) (trace o ++ trace o') (Throw t')
        end
    end.
Proof.
  rewrite update_blocks.
  cbv [try_catch mbind M_bind bind gets setTimeout log]. cbn [state trace result].
  destruct (try_block env w) as [w1 tr1 [[]|t]]; cbn [state trace result]; [done|].
  pose proof (catch_block_state env t w1) as Hs.
  destruct (catch_block env t w1) as [w2 tr2 r2].
  cbn in *. subst w2. destruct r2 as [[]|]; cbn; rewrite <- ?app_assoc; done.
Qed.

Lemma update_state env w : state (update env w) = state (try_block env w).
Proof.
  pose proof (update_cases env w) as H. cbn zeta in H. rewrite H.
  destruct (result (try_block env w)); [done|].
  destruct (result (catch_block _ _ _)); done.
Qed.

(** What follows the [try] block in the trace of a cycle are notifications. *)
Lemma update_trace_rest env w :
  ∃ rest, trace (update env w) = trace (try_block env w) ++ rest ∧
          Forall (λ a, notification a = true) rest.
Proof.
  pose proof (update_cases env w) as H. cbn zeta in H. rewrite H.
  destruct (result (try_block env w)) as [|t]; [eexists; split; [done|by repeat constructor]|].
  pose proof (catch_block_notifications env t (state (try_block env w))) as Hn.
  destruct (result (catch_block _ _ _)); cbn [trace]; eexists; (split; [done|]); [|done].
  apply Forall_app. split; [done|by repeat constructor].
Qed.

Lemma update_trace_prefix env w :
  ∃ rest, trace (update env w) = trace (try_block env w) ++ rest.
Proof. destruct (update_trace_rest env w) as (rest & -> & _). eauto. Qed.

(** *** The [try] block, situation by situation *)

Lemma try_block_stat_fails env w t :
  world_stat env (filename_of w) = Throw t →
  try_block env w = MkOutcome w [StatSync (filename_of w)] (Throw t).
Proof. unfold filename_of. intros H. unfold try_block. run. rewrite H. done. Qed.

Lemma try_block_unchanged env w st :
  world_stat env (filename_of w) = Normal st →
  strict_equal_number (modifyTime_of w) (mtime st) = true →
  try_block env w = MkOutcome w [StatSync (filename_of w)] (Normal tt).
Proof.
  unfold filename_of, modifyTime_of. intros H Heq. unfold try_block. run.
  rewrite H. cbn. rewrite Heq. done.
Qed.

Lemma try_block_read_fails env w st t :
  changed env w st →
  world_read env (filename_of w) = Throw t →
  try_block env w =
    MkOutcome w [StatSync (filename_of w); ReadFileSync (filename_of w)] (Throw t).
Proof.
  unfold changed, filename_of, modifyTime_of. intros [H Hne] Hr. unfold try_block. run.
  rewrite H. cbn. rewrite Hne. cbn. rewrite Hr. done.
Qed.

Lemma try_block_parse_fails env w st content t :
  changed env w st →
  world_read env (filename_of w) = Normal content →
  result (parse env (filename_of w) content w) = Throw t →
  try_block env w =
    MkOutcome w
      ([StatSync (filename_of w); ReadFileSync (filename_of w)] ++
       trace (parse env (filename_of w) content w))
      (Throw t).
Proof.
  unfold changed, filename_of, modifyTime_of. intros [H Hne] Hr Hp. unfold try_block.
  cbv [fs_statSync fs_readFileSync mbind mret M_bind M_ret bind ret throw gets modify log complete].
  cbn [state trace result app].
  rewrite H. cbn. rewrite Hne. cbn. rewrite Hr. cbn.
  pose proof (parse_state env (get_field (options w) "filename") content w) as Hs.
  destruct (parse _ _ _ _) as [wp trp rp]. cbn in *. subst. done.
Qed.

(** The parse succeeds: the timestamp is stored, then the keys are merged,
    the properties defined and [this.emit] called for the [update] event. *)
Lemma try_block_parsed env w st content c :
  changed env w st →
  world_read env (filename_of w) = Normal content →
  result (parse env (filename_of w) content w) = Normal c →
  let pre := [StatSync (filename_of w); ReadFileSync (filename_of w)] ++
             trace (parse env (filename_of w) content w) in
  let w1 := set_options (insert "modifyTime" (Number (mtime st))) w in
  try_block env w =
    match Object_keys c with
    | Throw t => MkOutcome w1 pre (Throw t)
    | Normal keys =>
        let w2 := merge c keys w1 in
        let o3 := forEach (map_to_list (config w2)).*1
                    (λ key, Object_defineProperty key (ReadConfig key) true) w2 in
        match result o3 with
        | Throw t => MkOutcome (state o3) pre (Throw t)
        | Normal _ =>
            let o4 := this_emit env "update" c (state o3) in
            MkOutcome (state o3) (pre ++ trace o4) (result o4)
        end
    end.
Proof.
  unfold changed, filename_of, modifyTime_of. intros [H Hne] Hr Hp. unfold try_block.
  cbv [fs_statSync fs_readFileSync mbind mret M_bind M_ret bind ret throw gets modify log complete].
  cbn [state trace result app].
  rewrite H. cbn. rewrite Hne. cbn. rewrite Hr. cbn.
  pose proof (parse_state env (get_field (options w) "filename") content w) as Hs.
  destruct (parse _ _ _ _) as [wp trp rp]. cbn in *. subst.
  destruct (Object_keys c) as [keys|t]; cbn; [|by rewrite app_nil_r].
  pose proof (forEach_merge c keys
    (set_options (insert "modifyTime" (Number (mtime st))) w)) as Hm.
  cbv [modify] in Hm. rewrite Hm. clear Hm. cbn [state trace result].
  set (w2 := merge _ _ _).
  pose proof (forEach_define_frame (map_to_list (config w2)).*1 w2) as (Ht & _).
  cbn zeta in Ht.
  destruct (forEach _ _ w2) as [w3 tr3 [[]|t]]; cbn in *; subst;
    [|by rewrite ?app_nil_r].
  destruct (this_emit env "update" c w3) as [w4 tr4 r4] eqn:Ee.
  pose proof (this_emit_state env "update" c w3) as Hs. rewrite Ee in Hs. cbn in *. subst.
  done.
Qed.

(** The situation of a cycle is one of five. *)
Lemma cycle_situation env w :
  (∃ t, world_stat env (filename_of w) = Throw t) ∨
  (∃ st, world_stat env (filename_of w) = Normal st ∧
         strict_equal_number (modifyTime_of w) (mtime st) = true) ∨
  (∃ st t, changed env w st ∧ world_read env (filename_of w) = Throw t) ∨
  (∃ st content t, changed env w st ∧
     world_read env (filename_of w) = Normal content ∧
     result (parse env (filename_of w) content w) = Throw t) ∨
  (∃ st content c, changed env w st ∧
     world_read env (filename_of w) = Normal content ∧
     result (parse env (filename_of w) content w) = Normal c).
Proof.
  unfold changed.
  destruct (world_stat env (filename_of w)) as [st|t] eqn:Hs;
    [|left; by exists t].
  right.
  destruct (strict_equal_number (modifyTime_of w) (mtime st)) eqn:He;
    [left; by exists st|].
  right.
  destruct (world_read env (filename_of w)) as [content|t] eqn:Hr;
    [|left; by exists st, t].
  right.
  destruct (result (parse env (filename_of w) content w)) as [c|t] eqn:Hp.
  - right. by exists st, content, c.
  - left. by exists st, content, t.
Qed.

(** What a cycle may change in the instance, whatever happens in it. *)
Lemma try_block_frame env w :
  let w' := state (try_block env w) in
  events w' = events w ∧
  (∀ k, k ≠ "modifyTime" → options w' !! k = options w !! k) ∧
  (options w' = options w ∨
   ∃ st, parses_file env w st ∧ options w' = <["modifyTime" := Number (mtime st)]> (options w)) ∧
  (config w' = config w ∨
   ∃ c keys, Object_keys c = Normal keys ∧ config w' = config (merge c keys w)) ∧
  (redefinable w → redefinable w').
Proof.
  destruct (cycle_situation env w)
    as [(t & H)|[(st & H & He)|[(st & t & H & Hr)|
        [(st & content & t & H & Hr & Hp)|(st & content & c & H & Hr & Hp)]]]].
  - rewrite (try_block_stat_fails _ _ _ H). cbn. eauto 10.
  - rewrite (try_block_unchanged _ _ _ H He). cbn. eauto 10.
  - rewrite (try_block_read_fails _ _ _ _ H Hr). cbn. eauto 10.
  - rewrite (try_block_parse_fails _ _ _ _ _ H Hr Hp). cbn. eauto 10.
  - assert (parses_file env w st) as Hpf by (split; [done|]; by exists content, c).
    pose proof (try_block_parsed _ _ _ _ _ H Hr Hp) as E. cbn zeta in E. rewrite E. clear E.
    destruct (Object_keys c) as [keys|t] eqn:Hk.
    + cbn zeta. set (w1 := set_options _ w). set (w2 := merge _ _ _).
      pose proof (forEach_define_frame (map_to_list (config w2)).*1 w2) as (Ht & Ho & Hc & Hev).
      pose proof (forEach_define (map_to_list (config w2)).*1 w2) as Hdef.
      cbn zeta in Ht, Ho, Hc, Hev.
      destruct (forEach _ _ w2) as [w3 tr3 r3]. cbn in Ht, Ho, Hc, Hev |- *.
      assert (∀ tr tr' (r : Completion unit),
        state match r3 with
              | Normal _ => MkOutcome w3 tr r
              | Throw t => MkOutcome w3 tr' (Throw t)
              end = w3) as Hst by (intros; destruct r3; done).
      destruct (merge_frame c keys w1) as (Ho2 & Hp2 & He2).
      assert (config w2 = config (merge c keys w)) as Hc2
        by (unfold w2, w1; by rewrite merge_set_options).
      rewrite Hst, Ho, Hc, Hev. fold w2 in Ho2, Hp2, He2. rewrite Ho2, He2, Hc2. cbn.
      split_and!; [done| |right; eauto|right; eauto|].
      * intros k Hne. by rewrite lookup_insert_ne.
      * intros Hw. destruct Hdef as (w' & [= <- _ _] & Hw' & _); [|done].
        intros k d. rewrite Hp2. apply Hw.
    + cbn. split_and!; [done| |right; eauto|by left|done].
      intros k Hne. by rewrite lookup_insert_ne.
Qed.


Lemma update_redefinable env w : redefinable w → redefinable (state (update env w)).
Proof. rewrite update_state. apply try_block_frame. Qed.


Lemma update_options env w k :
  k ≠ "modifyTime" → options (state (update env w)) !! k = options w !! k.
Proof. rewrite update_state. apply try_block_frame. Qed.

Lemma update_filename env w : filename_of (state (update env w)) = filename_of w.
Proof. unfold filename_of, get_field. by rewrite update_options. Qed.

Lemma initialize_state filename opts :
  state (initialize filename opts blank) =
    {| options := Object_assign
         (<["interval" := VNum 60000]> (<["modifyTime" := VNum 0]> (<["filename" := filename]> ∅)))
         (default ∅ opts);
       config := ∅;
       config_prototype := Object_prototype;
       properties := ∅;
       events := events (state (initialize filename opts blank)) |}.
Proof.
  unfold initialize. run.
  destruct (default ∅ opts !! "onupdate") as [[]|]; cbn;
    destruct (default ∅ opts !! "onerror") as [[]|]; done.
Qed.

Lemma reachable_redefinable w : Reachable w → redefinable w.
Proof.
  induction 1 as [filename opts|env w _ IH|type f w _ IH].
  - rewrite initialize_state. intros k d. cbn. by rewrite lookup_empty.
  - by apply update_redefinable.
  - exact IH.
Qed.

(** *** A cycle, from what its [try] block did *)

Lemma update_after_normal env w w1 tr :
  try_block env w = MkOutcome w1 tr (Normal tt) →
  update env w =
    MkOutcome w1 (tr ++ [SetTimeout (get_field (options w1) "interval")]) (Normal tt).
Proof.
  intros E. pose proof (update_cases env w) as H. cbn zeta in H.
  rewrite H, E. done.
Qed.

(** The [try] block throws: the cycle ends as the [catch] block does, with
    the next timer when that block completes. *)
Lemma update_after_catch env w w1 tr t :
  try_block env w = MkOutcome w1 tr (Throw t) →
  update env w =
    MkOutcome w1
      (tr ++ trace (catch_block env t w1) ++
       if is_Normal (result (catch_block env t w1))
       then [SetTimeout (get_field (options w1) "interval")] else [])
      (result (catch_block env t w1)).
Proof.
  intros E. pose proof (update_cases env w) as H. cbn zeta in H.
  rewrite H, E. cbn [state trace result].
  destruct (result (catch_block env t w1)) as [[]|]; cbn [is_Normal];
    by rewrite ?app_nil_r.
Qed.

(** What the [try] block throws is [null] or [undefined]: the [TypeError]
    of [ex.message] leaves the cycle, with no event and no timer. *)
Lemma update_after_nullish env w w1 tr t e :
  try_block env w = MkOutcome w1 tr (Throw t) →
  read_message t = Throw e →
  update env w = MkOutcome w1 tr (Throw e).
Proof.
  intros E He. rewrite (update_after_catch _ _ _ _ _ E).
  rewrite (catch_block_nullish _ _ _ _ He). cbn. by rewrite app_nil_r.
Qed.

(** What the [try] block throws has a message and [emit] is the method of
    [EventEmitter]: the [error] event is emitted and decides how the cycle
    ends. *)
Lemma update_after_throw env w w1 tr (ex : Exn) :
  try_block env w = MkOutcome w1 tr (Throw ex) →
  emit_intact w1 →
  let o := update env w in
  let reported := result (emit env "error" (message ex) w1) in
  state o = w1 ∧
  emitted (trace o) = emitted tr ++ [("error", message ex)] ∧
  reads (trace o) = reads tr ∧
  parses (trace o) = parses tr ∧
  result o = match reported with Normal _ => Normal tt | Throw t' => Throw t' end ∧
  timers (trace o) =
    timers tr ++
    match reported with
    | Normal _ => [get_field (options w1) "interval"]
    | Throw _ => []
    end.
Proof.
  intros E Hi. cbn zeta. rewrite (update_after_catch _ _ _ _ _ E).
  rewrite catch_block_value, (this_emit_intact _ _ _ _ Hi). cbn [state trace result].
  destruct (notifications_no_io _ (emit_notifications env "error" (message ex) w1))
    as (_ & Hr & Hp).
  rewrite !emitted_app, !reads_app, !parses_app, !timers_app, emit_emitted, emit_timers, Hr, Hp.
  destruct (result (emit env "error" (message ex) w1)); cbn [is_Normal andb];
    [destruct (truthy _)|]; cbn; rewrite ?app_nil_r; done.
Qed.

(** A cycle whose stat, read or parse throws stops its [try] block before
    anything is stored. *)
Lemma try_block_load_fails env w t :
  load_fails env w t →
  ∃ tr, try_block env w = MkOutcome w tr (Throw t) ∧
        emitted tr = [] ∧ timers tr = [].
Proof.
  intros [H|[(st & H & Hr)|(st & content & H & Hr & Hp)]].
  - rewrite (try_block_stat_fails _ _ _ H). eauto.
  - rewrite (try_block_read_fails _ _ _ _ H Hr). eauto.
  - rewrite (try_block_parse_fails _ _ _ _ _ H Hr Hp).
    destruct (parse_quiet env (filename_of w) content w) as (He & Ht & _).
    eexists. split; [done|]. rewrite emitted_app, timers_app, He, Ht. done.
Qed.

(** Once the parse has succeeded the timestamp is stored, whatever the
    parsed value is and whatever happens afterwards. *)
Lemma parsed_stores_options env w st :
  parses_file env w st →
  options (state (update env w)) = <["modifyTime" := Number (mtime st)]> (options w).
Proof.
  intros (H & content & c & Hr & Hp). rewrite update_state.
  pose proof (try_block_parsed _ _ _ _ _ H Hr Hp) as E. cbn zeta in E.
  rewrite E. clear E.
  destruct (Object_keys c) as [keys|]; [|done].
  set (w2 := merge _ _ _).
  pose proof (forEach_define_frame (map_to_list (config w2)).*1 w2) as (_ & Ho & _).
  cbn zeta in Ho. destruct (merge_frame c keys
    (set_options (insert "modifyTime" (Number (mtime st))) w)) as (Ho2 & _).
  fold w2 in Ho2.
  destruct (forEach _ _ w2) as [w3 tr3 [[]|t]]; cbn in Ho |- *; by rewrite Ho, Ho2.
Qed.

(** A reload stores the timestamp and merges the keys, whatever happens
    to the properties and to the listeners afterwards. *)
Lemma reload_stores env w st c keys :
  reloads env w st c →
  Object_keys c = Normal keys →
  options (state (update env w)) = <["modifyTime" := Number (mtime st)]> (options w) ∧
  config (state (update env w)) = config (merge c keys w).
Proof.
  intros (H & content & Hr & Hp & _) Hk. split.
  { apply parsed_stores_options. split; [done|]. by exists content, c. }
  rewrite update_state.
  pose proof (try_block_parsed _ _ _ _ _ H Hr Hp) as E. cbn zeta in E.
  rewrite E, Hk. clear E. rewrite merge_set_options.
  set (w2 := set_options _ _).
  pose proof (forEach_define_frame (map_to_list (config w2)).*1 w2) as (_ & _ & Hc & _).
  cbn zeta in Hc.
  destruct (forEach _ _ w2) as [w3 tr3 [[]|t]]; cbn in Hc |- *; rewrite Hc; done.
Qed.

(** A reload on an instance whose properties can be redefined, with what
    it leaves in the instance and in the trace: it gets to the call of
    [this.emit] with every key of the merged configuration projected. *)
Lemma try_block_reload_full env w st content c keys :
  redefinable w →
  changed env w st →
  world_read env (filename_of w) = Normal content →
  result (parse env (filename_of w) content w) = Normal c →
  Object_keys c = Normal keys →
  ∃ w',
    try_block env w =
      MkOutcome w'
        ([StatSync (filename_of w); ReadFileSync (filename_of w)] ++
         trace (parse env (filename_of w) content w) ++
         trace (this_emit env "update" c w'))
        (result (this_emit env "update" c w')) ∧
    config w' = config (merge c keys w) ∧
    events w' = events w ∧
    redefinable w' ∧
    (∀ k, is_Some (config w' !! k) → projected w' k) ∧
    (∀ k, config w' !! k = None → properties w' !! k = properties w !! k).
Proof.
  intros Hw H Hr Hp Hk.
  pose proof (try_block_parsed _ _ _ _ _ H Hr Hp) as E. cbn zeta in E.
  rewrite E, Hk. clear E. rewrite merge_set_options.
  set (w2 := set_options _ _).
  destruct (merge_frame c keys w) as (_ & Hp2 & He2).
  destruct (forEach_define (map_to_list (config w2)).*1 w2) as (w3 & E3 & Hw3 & Hin & Hout).
  { intros k d. cbn. rewrite Hp2. apply Hw. }
  pose proof (forEach_define_frame (map_to_list (config w2)).*1 w2) as (_ & _ & Hc & Hev).
  cbn zeta in Hc, Hev. rewrite E3 in Hc, Hev |- *. cbn in Hc, Hev |- *.
  exists w3. split_and!; [by rewrite <- ?app_assoc|done|by rewrite Hev|done| |].
  - intros k [v Hv]. rewrite Hc in Hv. apply Hin.
    apply list_elem_of_fmap. exists (k, v). split; [done|].
    apply elem_of_map_to_list. exact Hv.
  - intros k Hn. rewrite Hc in Hn. rewrite Hout; [by rewrite <- Hp2|].
    intros ([k' v] & -> & Hkv)%list_elem_of_fmap.
    apply elem_of_map_to_list in Hkv. cbn in Hkv, Hn. congruence.
Qed.

Lemma try_block_reloads env w st c :
  redefinable w →
  reloads env w st c →
  ∃ w' tr,
    try_block env w =
      MkOutcome w' (tr ++ trace (this_emit env "update" c w'))
        (result (this_emit env "update" c w')) ∧
    emitted tr = [] ∧ timers tr = [] ∧
    events w' = events w ∧
    (∀ k, is_Some (config w' !! k) → projected w' k).
Proof.
  intros Hw (H & content & Hr & Hp & es & Hes).
  assert (Object_keys c = Normal es.*1) as Hk by (unfold Object_keys; by rewrite Hes).
  destruct (try_block_reload_full _ _ _ _ _ _ Hw H Hr Hp Hk) as (w' & E & _ & Hev & _ & Hin & _).
  exists w', ([StatSync (filename_of w); ReadFileSync (filename_of w)] ++
              trace (parse env (filename_of w) content w)).
  split; [by rewrite <- app_assoc|].
  destruct (parse_quiet env (filename_of w) content w) as (He & Ht & _).
  rewrite emitted_app, timers_app, He, Ht. done.
Qed.

(** *** The instance exposes its configuration *)

Lemma update_exposes env w : exposes w → exposes (state (update env w)).
Proof.
  intros (Hw & Hin & Hout). rewrite update_state.
  destruct (cycle_situation env w)
    as [(t & H)|[(st & H & He)|[(st & t & H & Hr)|
        [(st & content & t & H & Hr & Hp)|(st & content & c & H & Hr & Hp)]]]].
  - by rewrite (try_block_stat_fails _ _ _ H).
  - by rewrite (try_block_unchanged _ _ _ H He).
  - by rewrite (try_block_read_fails _ _ _ _ H Hr).
  - by rewrite (try_block_parse_fails _ _ _ _ _ H Hr Hp).
  - destruct (Object_keys c) as [keys|t] eqn:Hk.
    + destruct (try_block_reload_full _ _ _ _ _ _ Hw H Hr Hp Hk)
        as (w' & -> & Hc & _ & Hw' & Hin' & Hout').
      cbn [state]. split_and!; [done|done|].
      intros k Hn. rewrite (Hout' k Hn). apply Hout.
      rewrite Hc in Hn. destruct (config w !! k) as [v|] eqn:E; [|done].
      destruct (merge_keeps c keys w k) as [v' Hv]; [by rewrite E|]. congruence.
    + pose proof (try_block_parsed _ _ _ _ _ H Hr Hp) as E. cbn zeta in E.
      rewrite E, Hk. done.
Qed.

Lemma reachable_exposes w : Reachable w → exposes w.
Proof.
  induction 1 as [filename opts|env w _ IH|type f w _ IH].
  - rewrite initialize_state. split_and!.
    + intros k d. cbn. by rewrite lookup_empty.
    + intros k [v Hv]. cbn in Hv. by rewrite lookup_empty in Hv.
    + intros k _. cbn. apply lookup_empty.
  - by apply update_exposes.
  - exact IH.
Qed.

(** *** The timers *)

Lemma poll_cons env envs w :
  poll (env :: envs) w =
    match resolve w "update" with
    | Inherited => (update env;; poll envs) w
    | Shadowed (VFun g) => MkOutcome w [Apply g []] (world_apply env g [])
    | Shadowed _ => MkOutcome w [] (Throw (Error (VStr "this.update is not a function")))
    end.
Proof.
  cbn [poll]. rewrite bind_run. cbn [gets state trace result app].
  destruct (resolve w "update") as [|[]]; try reflexivity.
  by destruct ((update env ≫= λ _, poll envs) w).
Qed.

(** What a sequence of timers leaves is what it found, or what one more
    cycle and the rest of the sequence leave. *)
Lemma poll_state env envs w :
  state (poll (env :: envs) w) = w ∨
  state (poll (env :: envs) w) = state (update env w) ∨
  (result (update env w) = Normal tt ∧
   state (poll (env :: envs) w) = state (poll envs (state (update env w)))).
Proof.
  rewrite poll_cons. destruct (resolve w "update") as [|[]]; try by left.
  right. rewrite bind_run. destruct (result (update env w)) as [[]|]; cbn [state]; eauto.
Qed.


Lemma poll_filename envs w : filename_of (state (poll envs w)) = filename_of w.
Proof.
  revert w. induction envs as [|env envs IH]; intros w; [done|].
  destruct (poll_state env envs w) as [->|[->|[_ ->]]]; [done| |rewrite IH];
    apply update_filename.
Qed.

Lemma try_block_timers env w : timers (trace (try_block env w)) = [].
Proof.
  destruct (cycle_situation env w)
    as [(t & H)|[(st & H & He)|[(st & t & H & Hr)|
        [(st & content & t & H & Hr & Hp)|(st & content & c & H & Hr & Hp)]]]].
  - by rewrite (try_block_stat_fails _ _ _ H).
  - by rewrite (try_block_unchanged _ _ _ H He).
  - by rewrite (try_block_read_fails _ _ _ _ H Hr).
  - rewrite (try_block_parse_fails _ _ _ _ _ H Hr Hp). cbn [trace].
    destruct (parse_quiet env (filename_of w) content w) as (_ & Ht & _).
    by rewrite timers_app, Ht.
  - pose proof (try_block_parsed _ _ _ _ _ H Hr Hp) as E. cbn zeta in E. rewrite E.
    destruct (parse_quiet env (filename_of w) content w) as (_ & Ht & _).
    destruct (Object_keys c); [|cbn [trace]; by rewrite timers_app, Ht].
    destruct (result (forEach _ _ _)); cbn [trace];
      rewrite ?timers_app, ?this_emit_timers, Ht; done.
Qed.

(** A cycle starts the timer [interval] asks for exactly when it completes. *)
Lemma update_timer env w :
  timers (trace (update env w)) =
    if is_Normal (result (update env w)) then [get_field (options w) "interval"] else [].
Proof.
  pose proof (update_cases env w) as H. cbn zeta in H. rewrite H. clear H.
  pose proof (try_block_timers env w) as Ht.
  destruct (try_block_frame env w) as (_ & Ho & _).
  assert (get_field (options (state (try_block env w))) "interval" =
          get_field (options w) "interval") as -> by (unfold get_field; by rewrite Ho).
  destruct (result (try_block env w)) as [|t]; cbn [trace result is_Normal].
  - by rewrite timers_app, Ht.
  - pose proof (catch_block_timers env t (state (try_block env w))) as Hc.
    destruct (result (catch_block _ _ _)); cbn [trace result is_Normal];
      rewrite !timers_app, ?Ht, ?Hc; done.
Qed.

(** The only timer of a cycle is the one [interval] asks for. *)
Lemma update_timers env w d :
  d ∈ timers (trace (update env w)) → d = get_field (options w) "interval".
Proof.
  rewrite update_timer. destruct (is_Normal _).
  - by intros ->%list_elem_of_singleton.
  - by intros ?%elem_of_nil.
Qed.

Lemma poll_timers envs w d :
  d ∈ timers (trace (poll envs w)) → d = get_field (options w) "interval".
Proof.
  revert w. induction envs as [|env envs IH]; intros w; [by intros ?%elem_of_nil|].
  rewrite poll_cons. destruct (resolve w "update") as [|[]];
    try (cbn; by intros ?%elem_of_nil).
  rewrite bind_run.
  destruct (result (update env w)); cbn [trace].
  - rewrite timers_app. intros [Hd|Hd]%elem_of_app; [by apply update_timers in Hd|].
    apply IH in Hd. rewrite Hd. unfold get_field. by rewrite update_options.
  - apply update_timers.
Qed.

(** *** The stored timestamp *)

(** A cycle leaves the stored timestamp alone or stores the one it observed. *)
Lemma update_modifyTime env w :
  modifyTime_of (state (update env w)) = modifyTime_of w ∨
  ∃ st, world_stat env (filename_of w) = Normal st ∧
        modifyTime_of (state (update env w)) = Number (mtime st).
Proof.
  rewrite update_state. unfold modifyTime_of, get_field.
  destruct (try_block_frame env w) as (_ & _ & [->|(st & [[Hs _] _] & ->)] & _); [by left|].
  right. exists st. split; [done|]. by rewrite lookup_insert_eq.
Qed.

Lemma poll_modifyTime envs w s b :
  modifyTime_of w = VNum s → s ≤ b →
  mtimes_ascend (filename_of w) b envs →
  ∃ t', modifyTime_of (state (poll envs w)) = VNum t' ∧ s ≤ t'.
Proof.
  revert w s b. induction envs as [|env envs IH]; intros w s b Hw Hsb Hasc.
  - exists s. split; [done|lia].
  - cbn [mtimes_ascend] in Hasc.
    assert (∃ s' b', modifyTime_of (state (update env w)) = VNum s' ∧ s ≤ s' ∧ s' ≤ b' ∧
                     mtimes_ascend (filename_of w) b' envs) as (s' & b' & Hs' & Hle & Hle' & Hrest).
    { destruct (update_modifyTime env w) as [E|(st & Hst & E)].
      - destruct (world_stat env (filename_of w)) as [st|t].
        + exists s, (mtime st). rewrite E. split_and!; [done|lia|lia|tauto].
        + exists s, b. rewrite E. split_and!; [done|lia|lia|done].
      - rewrite Hst in Hasc. exists (mtime st), (mtime st).
        split_and!; [done|lia|lia|tauto]. }
    destruct (poll_state env envs w) as [->|[->|[_ ->]]].
    + exists s. split; [done|lia].
    + exists s'. split; [done|lia].
    + destruct (IH (state (update env w)) s' b' Hs' Hle') as (t' & Ht' & Hge).
      * by rewrite update_filename.
      * exists t'. split; [done|lia].
Qed.

(** *** Searching a text *)

Lemma substring_prefix m s t :
  String.substring 0 m s = t → String.length t = m → ∃ post, s = t +:+ post.
Proof.
  revert s t. induction m as [|m IH]; intros s t.
  - destruct s; cbn; intros <- _; eauto.
  - destruct s as [|a s]; cbn; intros <-; [done|]. cbn. intros [= Hl].
    destruct (IH s _ eq_refl Hl) as [post Hp]. exists post.
    change (String a s = String a (String.substring 0 m s +:+ post)). by f_equal.
Qed.

Lemma substring_contains n m s t :
  String.substring n m s = t → String.length t = m → contains s t.
Proof.
  revert s. induction n as [|n IH]; intros s Hs Hl.
  - destruct (substring_prefix _ _ _ Hs Hl) as [post ->]. by exists EmptyString, post.
  - destruct s as [|a s].
    + cbn in Hs. subst t. exists EmptyString, EmptyString. done.
    + cbn in Hs. destruct (IH s Hs Hl) as (pre & post & ->).
      by exists (String a pre), post.
Qed.

Lemma substring_append_prefix t post :
  String.substring 0 (String.length t) (t +:+ post) = t.
Proof.
  induction t as [|a t IH].
  - by destruct post.
  - change (String a (String.substring 0 (String.length t) (t +:+ post)) = String a t).
    by f_equal.
Qed.

Lemma substring_append_middle pre t post :
  String.substring (String.length pre) (String.length t) (pre +:+ t +:+ post) = t.
Proof.
  induction pre as [|a pre IH]; [exact (substring_append_prefix t post)|exact IH].
Qed.

(** [indexOf] finds a pattern exactly when the text contains it. *)
Lemma indexOf_contains s pattern :
  pattern ≠ EmptyString →
  (0 <=? indexOf s pattern) = true ↔ contains s pattern.
Proof.
  intros Hne. unfold indexOf.
  destruct (String.index 0 pattern s) as [n|] eqn:E.
  - split; [intros _|intros _; apply Z.leb_le; lia].
    apply String.index_correct1 in E. by eapply substring_contains.
  - split; [done|]. intros (pre & post & ->). exfalso.
    eapply (String.index_correct3 _ (String.length pre)); [exact E|exact Hne|lia|].
    apply substring_append_middle.
Qed.

(** *** Comparing extensions *)

Lemma in_all_ascii a : In a all_ascii.
Proof.
  unfold all_ascii. rewrite <- (ascii_nat_embedding a).
  apply List.in_map, List.in_seq. pose proof (nat_ascii_bounded a). lia.
Qed.

(** The lower case of a character is a given plain character exactly when
    the two are the same ignoring case. *)
Lemma ascii_toLowerCase_same a b :
  plain b = true →
  ascii_toLowerCase a = b ↔ ascii_same_ignoring_case a b = true.
Proof.
  intros Hb.
  assert (lower_case_agrees = true) as H by (vm_compute; reflexivity).
  unfold lower_case_agrees in H.
  rewrite List.forallb_forall in H. specialize (H a (in_all_ascii a)).
  rewrite List.forallb_forall in H. specialize (H b (in_all_ascii b)).
  rewrite Hb in H. cbn [implb] in H. apply Bool.eqb_prop in H.
  rewrite <- H. symmetry. apply Ascii.eqb_eq.
Qed.

(** The lower case of an extension is a given plain one exactly when the
    two are the same ignoring case. *)
Lemma toLowerCase_same s t :
  plain_string t = true →
  toLowerCase s = t ↔ same_ignoring_case s t = true.
Proof.
  revert t. induction s as [|a s IH]; intros [|b t] Ht; cbn; try done.
  cbn in Ht. apply andb_true_iff in Ht as [Hb Ht].
  rewrite andb_true_iff, <- (IH t Ht), <- (ascii_toLowerCase_same a b Hb).
  split; [by intros [= -> ->]|by intros [-> ->]].
Qed.

(** The test of the [switch] is the case-insensitive comparison with the
    three extensions. *)
Lemma switch_markup ext :
  (bool_decide (toLowerCase ext = ".yaml") || bool_decide (toLowerCase ext = ".yml")
   || bool_decide (toLowerCase ext = ".json")) = true ↔ markup_extension ext.
Proof.
  unfold markup_extension.
  rewrite !orb_true_iff, !bool_decide_eq_true.
  rewrite !toLowerCase_same by reflexivity. tauto.
Qed.

(** *** The constructor *)

Lemma initialize_outcome filename opts :
  initialize filename opts blank =
    MkOutcome (state (initialize filename opts blank)) [] (Normal tt).
Proof.
  unfold initialize. run.
  destruct (default ∅ opts !! "onupdate") as [[]|]; cbn;
    destruct (default ∅ opts !! "onerror") as [[]|]; done.
Qed.

(** The constructor ends with the first load. *)
Lemma new_RealtimeConfig_update env filename opts :
  new_RealtimeConfig env filename opts = update env (state (initialize filename opts blank)).
Proof.
  unfold new_RealtimeConfig, constructor. rewrite bind_run, initialize_outcome.
  cbn [state trace result app]. by destruct (update env _).
Qed.




(** *** The shape of the trace of a cycle *)

(** A cycle that reads the file hands its content to [parse]. *)
Lemma try_block_trace_parse env w st content :
  changed env w st →
  world_read env (filename_of w) = Normal content →
  ∃ rest,
    trace (try_block env w) =
      [StatSync (filename_of w); ReadFileSync (filename_of w)] ++
      trace (parse env (filename_of w) content w) ++ rest.
Proof.
  intros H Hr.
  destruct (result (parse env (filename_of w) content w)) as [c|t] eqn:Hp.
  - pose proof (try_block_parsed _ _ _ _ _ H Hr Hp) as E. cbn zeta in E. rewrite E.
    destruct (Object_keys c); [|exists []; cbn; by rewrite app_nil_r].
    destruct (result (forEach _ _ _)); cbn; [|exists []; by rewrite app_nil_r].
    eexists. cbn [trace app]. reflexivity.
  - rewrite (try_block_parse_fails _ _ _ _ _ H Hr Hp). exists []. cbn. by rewrite app_nil_r.
Qed.

(** The [try] block does the stat, then the read and the parse of
    [cycle_io], and ends, when it gets there, with the call of [this.emit]
    for the [update] event. *)
Lemma try_block_trace_shape env w :
  ∃ notes, trace (try_block env w) = StatSync (filename_of w) :: cycle_io env w ++ notes ∧
           (notes = [] ∨
            ∃ c, notes = trace (this_emit env "update" c (state (try_block env w)))).
Proof.
  unfold cycle_io.
  destruct (cycle_situation env w)
    as [(t & H)|[(st & H & He)|[(st & t & [H Hne] & Hr)|
        [(st & content & t & [H Hne] & Hr & Hp)|(st & content & c & [H Hne] & Hr & Hp)]]]].
  - rewrite (try_block_stat_fails _ _ _ H), H. exists []. split; [done|by left].
  - rewrite (try_block_unchanged _ _ _ H He), H, He. exists []. split; [done|by left].
  - rewrite (try_block_read_fails _ _ _ _ (conj H Hne) Hr), H, Hne, Hr.
    exists []. split; [done|by left].
  - rewrite (try_block_parse_fails _ _ _ _ _ (conj H Hne) Hr Hp), H, Hne, Hr.
    exists []. split; [|by left]. cbn. by rewrite app_nil_r.
  - pose proof (try_block_parsed _ _ _ _ _ (conj H Hne) Hr Hp) as E. cbn zeta in E.
    rewrite E, H, Hne, Hr. clear E.
    destruct (Object_keys c); [|exists []; split; [cbn; by rewrite app_nil_r|by left]].
    destruct (result (forEach _ _ _)); cbn [state trace];
      [|exists []; split; [cbn; by rewrite app_nil_r|by left]].
    eexists. split; [cbn [app]; reflexivity|right; eauto].
Qed.

Lemma try_block_first env w :
  ∃ rest, trace (try_block env w) = StatSync (filename_of w) :: rest.
Proof. destruct (try_block_trace_shape env w) as (notes & -> & _). eauto. Qed.

(** A cycle whose stat, read or parse throws has done its stat and the
    read and parse of [cycle_io], nothing else, when it enters the [catch]
    block. *)
Lemma try_block_load_fails_trace env w t :
  load_fails env w t →
  try_block env w = MkOutcome w (StatSync (filename_of w) :: cycle_io env w) (Throw t).
Proof.
  unfold cycle_io.
  intros [H|[(st & [H Hne] & Hr)|(st & content & [H Hne] & Hr & Hp)]].
  - by rewrite (try_block_stat_fails _ _ _ H), H.
  - by rewrite (try_block_read_fails _ _ _ _ (conj H Hne) Hr), H, Hne, Hr.
  - by rewrite (try_block_parse_fails _ _ _ _ _ (conj H Hne) Hr Hp), H, Hne, Hr.
Qed.

(** What [cycle_io] holds. *)
Lemma cycle_io_readings env w :
  stats (cycle_io env w) = [] ∧
  emitted (cycle_io env w) = [] ∧
  consoled (cycle_io env w) = [] ∧
  calls (cycle_io env w) = [] ∧
  timers (cycle_io env w) = [] ∧
  reads (cycle_io env w) =
    match world_stat env (filename_of w) with
    | Normal st =>
        if strict_equal_number (modifyTime_of w) (mtime st) then []
        else [filename_of w]
    | Throw _ => []
    end ∧
  (List.length (parses (cycle_io env w)) ≤ 1)%nat.
Proof.
  unfold cycle_io.
  destruct (world_stat env (filename_of w)) as [st|]; [|cbn; split_and!; done || lia].
  destruct (strict_equal_number _ _); [cbn; split_and!; done || lia|].
  destruct (world_read env (filename_of w)) as [content|]; [|cbn; split_and!; done || lia].
  destruct (parse_trace env (filename_of w) content w) as [->|[->|[body ->]]];
    cbn; split_and!; done || lia.
Qed.

Lemma update_trace_shape env w :
  ∃ notes, trace (update env w) = StatSync (filename_of w) :: cycle_io env w ++ notes ∧
           Forall (λ a, notification a = true) notes.
Proof.
  destruct (update_trace_rest env w) as (rest & -> & Hrest).
  destruct (try_block_trace_shape env w) as (notes & -> & Hnotes).
  exists (notes ++ rest). split; [cbn; by rewrite <- app_assoc|].
  apply Forall_app. split; [|done].
  destruct Hnotes as [->|(c & ->)]; [done|apply this_emit_notifications].
Qed.

(** The [try] block emits nothing but, at its end, the [update] event, and
    writes nothing to the console. *)
Lemma try_block_notes env w :
  (emitted (trace (try_block env w)) = [] ∨
   ∃ c, emitted (trace (try_block env w)) = [("update", c)]) ∧
  consoled (trace (try_block env w)) = [].
Proof.
  destruct (try_block_trace_shape env w) as (notes & -> & Hnotes).
  destruct (cycle_io_readings env w) as (_ & He & Hc & _).
  change (StatSync (filename_of w) :: cycle_io env w ++ notes)
    with ([StatSync (filename_of w)] ++ cycle_io env w ++ notes).
  rewrite !emitted_app, !consoled_app, He, Hc. cbn.
  destruct Hnotes as [->|(c & ->)]; [by split; [left|]|].
  rewrite this_emit_consoled. split; [|done].
  destruct (this_emit_emitted env "update" c (state (try_block env w))) as [->| ->];
    [right; eauto|by left].
Qed.

(** *** The events of a cycle *)

Lemma emitted_timer (b : bool) d : emitted (if b then [SetTimeout d] else []) = [].
Proof. by destruct b. Qed.

(** A cycle whose [try] block throws emits what that block emitted, then
    what the [catch] block emits. *)
Lemma update_catch_emitted env w w1 tr t :
  try_block env w = MkOutcome w1 tr (Throw t) →
  emitted (trace (update env w)) = emitted tr ++ emitted (trace (catch_block env t w1)).
Proof.
  intros E. rewrite (update_after_catch _ _ _ _ _ E). cbn [trace].
  by rewrite !emitted_app, emitted_timer, app_nil_r.
Qed.

(** Once [this.emit] is not a function, no call of it records anything. *)
Lemma this_emit_twice env type arg type' arg' w :
  this_emit env type arg w =
    MkOutcome w [] (Throw (Error (VStr "this.emit is not a function"))) →
  this_emit env type' arg' w =
    MkOutcome w [] (Throw (Error (VStr "this.emit is not a function"))).
Proof.
  rewrite !this_emit_cases. destruct (resolve w "emit") as [|[]]; try done.
  intros [= H _]. by rewrite emit_trace in H.
Qed.

(** The events of a reload: none when [this.emit] is not a function any
    more; else the [update] event, then at most the [error] event that
    reports what the call threw. *)
Lemma reload_emitted env w st c :
  redefinable w →
  reloads env w st c →
  (emitted (trace (update env w)) = [] ∧ ¬ emit_intact (state (update env w))) ∨
  (emitted (trace (update env w)) = [("update", c)] ∧
   (is_Normal (result (this_emit env "update" c (state (update env w)))) = true ∨
    ∃ ex, result (update env w) = Throw (Thrown_value ex))) ∨
  (∃ ex, result (this_emit env "update" c (state (update env w))) = Throw (Thrown_value ex) ∧
         emitted (trace (update env w)) = [("update", c); ("error", message ex)]).
Proof.
  intros Hw Hr.
  destruct (try_block_reloads _ _ _ _ Hw Hr) as (w' & tr & E & He & _).
  assert (state (update env w) = w') as -> by (by rewrite update_state, E).
  destruct (this_emit_emitted env "update" c w') as [Hu|Hu].
  - right. destruct (result (this_emit env "update" c w')) as [[]|t] eqn:Hres.
    + left. rewrite (update_after_normal _ _ _ _ E). cbn [trace].
      rewrite !emitted_app, He, Hu. split; [done|by left].
    + rewrite (update_catch_emitted _ _ _ _ _ E), emitted_app, He, Hu.
      destruct (read_message_cases t) as [[ex ->]|[e Ht]].
      * rewrite catch_block_value. cbn [trace]. rewrite emitted_app.
        assert (∀ b : bool, emitted (if b
          then [ConsoleError "rtconfig/src/index.ts:222 Read the config error. %s" (message ex)]
          else []) = []) as -> by (by intros []).
        destruct (this_emit_emitted env "error" (message ex) w') as [-> |Hn].
        -- right. exists ex. done.
        -- exfalso. rewrite (this_emit_twice _ _ _ "update" c _ Hn) in Hu. done.
      * left. rewrite (catch_block_nullish _ _ _ _ Ht). split; [done|right].
        rewrite (update_after_nullish _ _ _ _ _ _ E Ht). cbn. eauto.
  - left. rewrite Hu in E.
    rewrite (update_catch_emitted _ _ _ _ _ E), emitted_app, He.
    pose proof (catch_block_value env (Error (VStr "this.emit is not a function")) w') as Hc.
    cbn [message] in Hc. rewrite Hc.
    rewrite (this_emit_twice _ _ _ "error" (VStr "this.emit is not a function") _ Hu).
    split; [done|]. intros Hi. rewrite (this_emit_intact _ _ _ _ Hi) in Hu.
    injection Hu as Hu _. by rewrite emit_trace in Hu.
Qed.

(* ================================================================== *)
(** * The properties of the specification *)







(** C3.  A poll cycle whose stat succeeds with the stored timestamp reads no
    file, parses nothing, emits no event and leaves the instance as it was:
    all it does is the stat and the next timer. *)
Theorem unchanged_cycle_is_idle env w st :
  world_stat env (filename_of w) = Normal st →
  modifyTime_of w = Number (mtime st) →
  update env w =
    MkOutcome w
      [StatSync (filename_of w); SetTimeout (get_field (options w) "interval")]
      (Normal tt) ∧
  reads (trace (update env w)) = [] ∧
  parses (trace (update env w)) = [] ∧
  emitted (trace (update env w)) = [] ∧
  config (state (update env w)) = config w ∧
  modifyTime_of (state (update env w)) = modifyTime_of w.
Proof.
  intros Hs Hm.
  assert (strict_equal_number (modifyTime_of w) (mtime st) = true) as He.
  { rewrite Hm. cbn. by apply bool_decide_eq_true. }
  rewrite (update_after_normal _ _ _ _ (try_block_unchanged _ _ _ Hs He)). done.
Qed.

Lemma unchanged_cycle_is_idle_witness :
  update (Sample.first Sample.quiet) Sample.loaded =
    MkOutcome Sample.loaded [StatSync (VStr "app.yaml"); SetTimeout (VNum 60000)] (Normal tt).
Proof.
  apply (unchanged_cycle_is_idle (Sample.first Sample.quiet) Sample.loaded {| mtime := 1000 |});
    vm_compute; reflexivity.
Defined.

(** C4.  After a successful reload, every key of the merged [currentConfig],
    whether merged in this cycle or in an earlier one, is a property of the
    instance whose getter reads [currentConfig[key]] at the time of the
    read, and the property has no setter. *)
Theorem exposed_properties_are_live env w st c :
  Reachable w →
  reloads env w st c →
  ∀ k, is_Some (config (state (update env w)) !! k) →
    projected (state (update env w)) k ∧
    (∀ members,
       get_property members (state (update env w)) k =
         get_field (config (state (update env w))) k) ∧
    ∀ members cfg,
      get_property members (set_config (λ _, cfg) (state (update env w))) k = get_field cfg k.
Proof.
  intros Hw%reachable_redefinable Hr k Hk. rewrite update_state in Hk |- *.
  destruct (try_block_reloads _ _ _ _ Hw Hr) as (w' & tr & E & _ & _ & _ & Hp).
  rewrite E in Hk |- *. cbn [state] in Hk |- *.
  pose proof (Hp k Hk) as Hproj. split; [done|].
  destruct Hproj as (d & Hd & Hg & _).
  unfold get_property, read_descriptor. cbn. rewrite Hd, Hg. done.
Qed.

Lemma exposed_properties_are_live_witness :
  get_property Edge.members (state (update (Sample.second Sample.quiet) Sample.loaded)) "host" =
    VStr "192.168.0.101".
Proof.
  assert (reloads (Sample.second Sample.quiet) Sample.loaded {| mtime := 2000 |} Sample.port_v2)
    as Hr.
  { split; [split; vm_compute; reflexivity|].
    exists "port: 3309". split_and!; [vm_compute; reflexivity ..|by eexists]. }
  assert (Reachable Sample.loaded) as Hw.
  { apply Reachable_update, Reachable_new. }
  destruct (exposed_properties_are_live _ _ _ _ Hw Hr "host") as (_ & -> & _).
  - vm_compute. by eexists.
  - vm_compute. reflexivity.
Defined.

(** C5.  An [update] event that a successful reload emits carries the value
    parsed in this cycle, and the reload emits at most one.  The cycle
    emits nothing at all, or that event alone, or that event and then the
    [error] event that reports a listener of [update] throwing; it emits
    the [update] event whenever no configuration key has replaced [emit]. *)
Theorem update_event_carries_parsed env w st c :
  Reachable w →
  reloads env w st c →
  (∀ v, ("update", v) ∈ emitted (trace (update env w)) → v = c) ∧
  (emitted (trace (update env w)) = [] ∨
   emitted (trace (update env w)) = [("update", c)] ∨
   ∃ m, emitted (trace (update env w)) = [("update", c); ("error", m)]) ∧
  (emit_intact (state (update env w)) →
   ∃ rest, emitted (trace (update env w)) = ("update", c) :: rest).
Proof.
  intros Hw%reachable_redefinable Hr.
  destruct (reload_emitted _ _ _ _ Hw Hr) as [[H Hi]|[[H _]|(ex & _ & H)]]; rewrite H.
  - split_and!; [by intros v ?%elem_of_nil|by left|done].
  - split_and!; [|right; by left|eauto].
    intros v Hv%list_elem_of_singleton. by injection Hv.
  - split_and!; [|right; right; eauto|eauto].
    intros v [Hv|Hv%list_elem_of_singleton]%elem_of_cons; [by injection Hv|discriminate Hv].
Qed.

Lemma update_event_carries_parsed_witness :
  ∃ rest, emitted (trace (update (Sample.second Sample.quiet) Sample.loaded)) =
            ("update", VObj {[ "port" := VNum 3309 ]}) :: rest.
Proof.
  assert (reloads (Sample.second Sample.quiet) Sample.loaded {| mtime := 2000 |} Sample.port_v2)
    as Hr.
  { split; [split; vm_compute; reflexivity|].
    exists "port: 3309". split_and!; [vm_compute; reflexivity ..|by eexists]. }
  assert (Reachable Sample.loaded) as Hw.
  { apply Reachable_update, Reachable_new. }
  destruct (update_event_carries_parsed _ _ _ _ Hw Hr) as (_ & _ & H).
  apply H. vm_compute. reflexivity.
Defined.

(** C6.  In a cycle that reads the file, a file name whose extension is
    [.yaml], [.yml] or [.json], compared case-insensitively, sends the
    content to the YAML parser.  Any other extension sends it to the
    evaluator: as a module body whose [module.exports] is returned when the
    content contains [module.exports], as a single returned expression
    otherwise. *)
Theorem parse_dispatch env w st content ext :
  changed env w st →
  world_read env (filename_of w) = Normal content →
  world_extname env (filename_of w) = Normal ext →
  let module_body := "var module = {exports: {}};" +:+ content +:+ ";return module.exports" in
  let expression := "return (" +:+ content +:+ ")" in
  (markup_extension ext →
     parse env (filename_of w) content w =
       MkOutcome w [SafeLoad content] (world_safeLoad env content)) ∧
  (¬ markup_extension ext → contains content "module.exports" →
     parse env (filename_of w) content w =
       MkOutcome w [NewFunction module_body] (world_Function env module_body)) ∧
  (¬ markup_extension ext → ¬ contains content "module.exports" →
     parse env (filename_of w) content w =
       MkOutcome w [NewFunction expression] (world_Function env expression)) ∧
  ∃ rest,
    trace (update env w) =
      [StatSync (filename_of w); ReadFileSync (filename_of w)] ++
      trace (parse env (filename_of w) content w) ++ rest.
Proof.
  intros H Hr Hext module_body expression.
  pose proof (switch_markup ext) as Hm.
  assert ((0 <=? indexOf content "module.exports") = true ↔ contains content "module.exports")
    as Hc by (by apply indexOf_contains).
  split_and!.
  - intros Hy%Hm. unfold parse. run. rewrite Hext. cbn. rewrite Hy. cbn.
    by destruct (world_safeLoad env content).
  - intros Hn%(not_iff_compat Hm)%not_true_is_false Hin%Hc.
    unfold parse. run. rewrite Hext. cbn. rewrite Hn, Hin. cbn.
    fold module_body. by destruct (world_Function env module_body).
  - intros Hn%(not_iff_compat Hm)%not_true_is_false Hout%(not_iff_compat Hc)%not_true_is_false.
    unfold parse. run. rewrite Hext. cbn. rewrite Hn, Hout. cbn.
    fold expression. by destruct (world_Function env expression).
  - destruct (update_trace_prefix env w) as [rest1 ->].
    destruct (try_block_trace_parse _ _ _ _ H Hr) as [rest2 ->].
    exists (rest2 ++ rest1). by rewrite <- !app_assoc.
Qed.

Lemma parse_dispatch_witness :
  parse (Edge.capitals Sample.quiet) (VStr "App.YAML") "port: 3309" Edge.fresh_capitals =
    MkOutcome Edge.fresh_capitals [SafeLoad "port: 3309"] (Normal Sample.port_v2).
Proof.
  assert (changed (Edge.capitals Sample.quiet) Edge.fresh_capitals {| mtime := 1000 |}) as H.
  { split; vm_compute; reflexivity. }
  destruct (parse_dispatch (Edge.capitals Sample.quiet) Edge.fresh_capitals {| mtime := 1000 |}
              "port: 3309" ".YAML" H) as (Hy & _).
  - vm_compute. reflexivity.
  - vm_compute. reflexivity.
  - apply Hy. left. reflexivity.
Defined.







(** C9, as the code has it.  A cycle whose stat, read and parse succeed on
    a timestamp other than the stored one stores exactly the timestamp its
    stat reported, whether or not the parsed value can then be merged, and
    every other cycle leaves the stored one alone.  So along a sequence of
    cycles whose successful stats report timestamps that never go below
    the stored one and never decrease, [lastModifiedTime] does not
    decrease. *)
Theorem modifyTime_follows_mtime envs w t :
  modifyTime_of w = VNum t →
  mtimes_ascend (filename_of w) t envs →
  (∃ t', modifyTime_of (state (poll envs w)) = VNum t' ∧ t ≤ t') ∧
  (∀ env st, parses_file env w st →
     modifyTime_of (state (update env w)) = Number (mtime st)) ∧
  (∀ env, (∀ st, ¬ parses_file env w st) →
     modifyTime_of (state (update env w)) = modifyTime_of w).
Proof.
  intros Hw Hasc. split_and!.
  - by apply (poll_modifyTime envs w t t).
  - intros env st Hp. unfold modifyTime_of, get_field.
    rewrite (parsed_stores_options _ _ _ Hp). by rewrite lookup_insert_eq.
  - intros env Hn. rewrite update_state. unfold modifyTime_of.
    destruct (try_block_frame env w) as (_ & _ & [->|(st & Hp & _)] & _); [done|].
    by destruct (Hn st).
Qed.

Lemma modifyTime_follows_mtime_witness :
  ∃ t', modifyTime_of
          (state (poll [Sample.first Sample.quiet; Sample.second Sample.quiet] Sample.loaded)) =
          VNum t' ∧ 1000 ≤ t'.
Proof.
  apply (modifyTime_follows_mtime
           [Sample.first Sample.quiet; Sample.second Sample.quiet] Sample.loaded 1000).
  - vm_compute. reflexivity.
  - assert (world_stat (Sample.first Sample.quiet) (filename_of Sample.loaded) =
            Normal {| mtime := 1000 |}) as H1 by (vm_compute; reflexivity).
    assert (world_stat (Sample.second Sample.quiet) (filename_of Sample.loaded) =
            Normal {| mtime := 2000 |}) as H2 by (vm_compute; reflexivity).
    unfold mtimes_ascend. rewrite H1, H2. cbn [mtime]. lia.
Defined.

(** C9, as the specification has it, fails: when the file is replaced by an
    older one, the cycle reloads it and the stored timestamp goes from 2000
    down to 500. *)
Lemma modifyTime_can_decrease :
  modifyTime_of Sample.reloaded = VNum 2000 ∧
  world_stat (Sample.older Sample.quiet) (filename_of Sample.reloaded) =
    Normal {| mtime := 500 |} ∧
  result Sample.replaced_by_older = Normal tt ∧
  modifyTime_of (state Sample.replaced_by_older) = VNum 500.
Proof. vm_compute. done. Qed.

(** C10.  Whatever key the options object has overrides the default of the
    same name: [options.filename] replaces the first argument of the
    constructor, so that the first load and every later cycle stat that
    file; [options.interval] replaces 60000 as the delay of every timer;
    [options.modifyTime] replaces 0 as the timestamp the first stat is
    compared with. *)
Theorem options_override env filename opts k v :
  opts !! k = Some v →
  options (state (initialize filename (Some opts) blank)) !! k = Some v ∧
  (k = "filename" →
     (∃ rest, trace (new_RealtimeConfig env filename (Some opts)) = StatSync v :: rest) ∧
     (∀ envs, filename_of (state (poll envs (state (new_RealtimeConfig env filename (Some opts))))) = v)) ∧
  (k = "interval" →
     ∀ d, d ∈ timers (trace (new_RealtimeConfig env filename (Some opts))) → d = v) ∧
  (k = "modifyTime" →
     modifyTime_of (state (initialize filename (Some opts) blank)) = v) ∧
  (opts !! "filename" = None →
     filename_of (state (initialize filename (Some opts) blank)) = filename).
Proof.
  intros Hk.
  assert (options (state (initialize filename (Some opts) blank)) !! k = Some v) as Ho.
  { rewrite initialize_state. cbn. unfold Object_assign.
    apply lookup_union_Some_l. exact Hk. }
  split_and!; [exact Ho| | | |].
  - intros ->.
    assert (filename_of (state (initialize filename (Some opts) blank)) = v) as Hf
      by (unfold filename_of, get_field; by rewrite Ho).
    rewrite new_RealtimeConfig_update. split.
    + destruct (update_trace_prefix env (state (initialize filename (Some opts) blank)))
        as [rest1 ->].
      destruct (try_block_first env (state (initialize filename (Some opts) blank)))
        as [rest2 ->].
      rewrite Hf. eauto.
    + intros envs. by rewrite poll_filename, update_filename.
  - intros -> d Hd. rewrite new_RealtimeConfig_update in Hd.
    apply update_timers in Hd. unfold get_field in Hd. by rewrite Ho in Hd.
  - intros ->. unfold modifyTime_of, get_field. by rewrite Ho.
  - intros Hn. rewrite initialize_state. unfold filename_of, get_field. cbn.
    unfold Object_assign. rewrite lookup_union_r by done.
    rewrite lookup_insert_ne by done. rewrite lookup_insert_ne by done.
    by rewrite lookup_insert_eq.
Qed.

Lemma options_override_witness :
  options (state (initialize (VStr "ignored.json") (Some Sample.overriding) blank)) !! "filename" =
    Some (VStr "app.yaml") ∧
  ∃ rest,
    trace (new_RealtimeConfig (Sample.first Sample.quiet) (VStr "ignored.json")
             (Some Sample.overriding)) =
      StatSync (VStr "app.yaml") :: rest.
Proof.
  destruct (options_override (Sample.first Sample.quiet) (VStr "ignored.json")
              Sample.overriding "filename" (VStr "app.yaml")) as (H1 & H2 & _).
  - vm_compute. reflexivity.
  - split; [exact H1|]. apply H2. reflexivity.
Defined.

(* ================================================================== *)
(** * Further observations *)

(** A parser that returns [undefined] or [null] (an empty YAML document
    does) has not failed, so the timestamp is stored; the merge then
    throws, which is reported as an [error] event when no configuration
    key has replaced [emit].  The file is not read again until its
    timestamp changes. *)
Lemma unmergeable_value_is_reported env w st content c :
  changed env w st →
  world_read env (filename_of w) = Normal content →
  result (parse env (filename_of w) content w) = Normal c →
  Object_entries c = None →
  emit_intact w →
  emitted (trace (update env w)) =
    [("error", VStr "Cannot convert undefined or null to object")] ∧
  config (state (update env w)) = config w ∧
  modifyTime_of (state (update env w)) = Number (mtime st).
Proof.
  intros H Hr Hp Hes Hi.
  pose proof (try_block_parsed _ _ _ _ _ H Hr Hp) as E. cbn zeta in E.
  unfold Object_keys in E. rewrite Hes in E.
  destruct (update_after_throw _ _ _ _ _ E Hi) as (-> & -> & _).
  destruct (parse_quiet env (filename_of w) content w) as (He & _).
  rewrite emitted_app, He. split_and!; [done|done|].
  unfold modifyTime_of, get_field. cbn. by rewrite lookup_insert_eq.
Qed.

Lemma unmergeable_value_is_reported_witness :
  emitted (trace (update (Edge.emptied Sample.quiet) Sample.loaded_h)) =
    [("error", VStr "Cannot convert undefined or null to object")] ∧
  config (state (update (Edge.emptied Sample.quiet) Sample.loaded_h)) = config Sample.loaded_h ∧
  modifyTime_of (state (update (Edge.emptied Sample.quiet) Sample.loaded_h)) = VNum 3000.
Proof.
  apply (unmergeable_value_is_reported (Edge.emptied Sample.quiet) Sample.loaded_h
           {| mtime := 3000 |} EmptyString VUndefined).
  - split; vm_compute; reflexivity.
  - vm_compute. reflexivity.
  - vm_compute. reflexivity.
  - reflexivity.
  - vm_compute. reflexivity.
Defined.

(** The [update] event of the second load carries the parsed object, which
    has no [host], while the accumulated configuration still has it. *)
Lemma update_event_is_not_the_merged_state :
  emitted (trace (update (Sample.second Sample.quiet) Sample.loaded)) =
    [("update", Sample.port_v2)] ∧
  get_member Sample.port_v2 "host" = VUndefined ∧
  get_field (getJSON Sample.reloaded) "host" = VStr "192.168.0.101" ∧
  get_field (getJSON Sample.reloaded) "port" = VNum 3309.
Proof. vm_compute. done. Qed.

(** The scenario of the documentation: a YAML file with a [host] is read
    by the constructor and [host] becomes a property of the instance. *)
Lemma yaml_scenario :
  result Sample.born = Normal tt ∧
  get_property Edge.members (state Sample.born) "host" = VStr "192.168.0.101" ∧
  emitted (trace Sample.born) = [("update", Sample.host_v1)] ∧
  timers (trace Sample.born) = [VNum 60000].
Proof. vm_compute. done. Qed.

(** A file with a key [emit]: the reload defines a property [emit] on the
    instance before it calls [this.emit], so the call throws, and so does
    the one of the [catch] block; no listener hears of the reload, and the
    next cycle, which finds the file removed, reports nothing either. *)
Lemma emit_key_scenario :
  listeners Sample.loaded_h "update" = [1%nat] ∧
  listeners Sample.loaded_h "error" = [2%nat] ∧
  result (parse (Edge.shadowing Sample.quiet) (filename_of Sample.loaded_h)
            "emit: 1" Sample.loaded_h) = Normal Edge.own_emit ∧
  trace (update (Edge.shadowing Sample.quiet) Sample.loaded_h) =
    [StatSync (VStr "app.yaml"); ReadFileSync (VStr "app.yaml"); SafeLoad "emit: 1"] ∧
  result (update (Edge.shadowing Sample.quiet) Sample.loaded_h) =
    Throw (Error (VStr "this.emit is not a function")) ∧
  get_property Edge.members Edge.shadowed_h "emit" = VNum 1 ∧
  trace (update (Sample.gone Sample.quiet) Edge.shadowed_h) = [StatSync (VStr "app.yaml")] ∧
  result (update (Sample.gone Sample.quiet) Edge.shadowed_h) =
    Throw (Error (VStr "this.emit is not a function")).
Proof. vm_compute. done. Qed.

(** A listener of [update] that throws [null]: the [update] event is the
    only one, and the cycle throws the [TypeError] of [ex.message] without
    a timer. *)
Lemma null_from_listener_scenario :
  listeners Sample.loaded_h "update" = [1%nat] ∧
  world_call Edge.null_listener 1 Sample.port_v2 = Throw Thrown_null ∧
  emitted (trace (update Edge.null_listener Sample.loaded_h)) = [("update", Sample.port_v2)] ∧
  calls (trace (update Edge.null_listener Sample.loaded_h)) = [(1%nat, Sample.port_v2)] ∧
  timers (trace (update Edge.null_listener Sample.loaded_h)) = [] ∧
  result (update Edge.null_listener Sample.loaded_h) =
    Throw (Error (VStr "Cannot read properties of null (reading 'message')")).
Proof. vm_compute. done. Qed.



(* ================================================================== *)
(** * More properties of the code *)

(** ** What every cycle does *)

(** Every cycle stats the configured file exactly once; it reads the file
    exactly when the stat succeeds with a timestamp other than the stored
    one, and it hands at most one text to a parser. *)
Theorem cycle_io_profile env w :
  stats (trace (update env w)) = [filename_of w] ∧
  reads (trace (update env w)) =
    match world_stat env (filename_of w) with
    | Normal st =>
        if strict_equal_number (modifyTime_of w) (mtime st) then []
        else [filename_of w]
    | Throw _ => []
    end ∧
  (List.length (parses (trace (update env w))) ≤ 1)%nat.
Proof.
  destruct (update_trace_shape env w) as (notes & -> & Hn).
  destruct (notifications_no_io _ Hn) as (Hs & Hr & Hp).
  destruct (cycle_io_readings env w) as (Hs' & _ & _ & _ & _ & Hr' & Hp').
  change (StatSync (filename_of w) :: cycle_io env w ++ notes)
    with ([StatSync (filename_of w)] ++ cycle_io env w ++ notes).
  rewrite !stats_app, !reads_app, !parses_app, Hs, Hr, Hp, Hs', Hr'. cbn.
  rewrite !app_nil_r. done.
Qed.

(** A cycle starts the next timer, with [options.interval] as its delay,
    exactly when it completes: a cycle that throws starts none, and no
    cycle starts two. *)
Theorem timer_exactly_when_completed env w :
  timers (trace (update env w)) =
    if is_Normal (result (update env w)) then [get_field (options w) "interval"] else [].
Proof. apply update_timer. Qed.

(** A cycle emits at most one [update] event and at most one [error]
    event, the [update] event first.  A cycle that throws has emitted an
    [error] event, whose emission threw, or throws the [TypeError] of a
    call of [this.emit] that a configuration key has replaced, or of
    reading the message of [null] or [undefined]. *)
Theorem cycle_event_profile env w :
  ∃ upd err,
    emitted (trace (update env w)) = upd ++ err ∧
    (upd = [] ∨ ∃ c, upd = [("update", c)]) ∧
    (err = [] ∨ ∃ m, err = [("error", m)]) ∧
    (is_Normal (result (update env w)) = false →
     err ≠ [] ∨
     ∃ text,
       result (update env w) = Throw (Error (VStr text)) ∧
       text ∈ ["this.emit is not a function";
               "Cannot read properties of null (reading 'message')";
               "Cannot read properties of undefined (reading 'message')"]).
Proof.
  destruct (try_block_notes env w) as [Hu _].
  exists (emitted (trace (try_block env w))).
  destruct (try_block env w) as [w1 tr1 [[]|t]] eqn:E; cbn [trace] in Hu |- *.
  - exists []. rewrite (update_after_normal _ _ _ _ E). cbn [trace result is_Normal].
    rewrite emitted_app. split_and!; [done|done|by left|done].
  - exists (emitted (trace (catch_block env t w1))).
    rewrite (update_catch_emitted _ _ _ _ _ E).
    rewrite (update_after_catch _ _ _ _ _ E). cbn [result].
    split_and!; [done|done| |].
    + destruct (catch_block_emitted env t w1) as [->|(ex & _ & ->)]; eauto.
    + intros _. destruct t as [ex| |].
      * rewrite catch_block_value. cbn [trace result]. rewrite emitted_app.
        destruct (this_emit_emitted env "error" (message ex) w1) as [->| ->]; [by left|].
        right. eexists. split; [done|]. by constructor.
      * right. rewrite (catch_block_nullish env Thrown_null _ w1 eq_refl).
        eexists. split; [done|]. by do 2 constructor.
      * right. rewrite (catch_block_nullish env Thrown_undefined _ w1 eq_refl).
        eexists. split; [done|]. by do 3 constructor.
Qed.

(** The console gets at most one line per cycle, never without the debug
    flag, and the line carries the message of the [error] event of the
    cycle; with the flag, a failed load whose cycle completes writes it. *)
Theorem console_only_when_debugging env w :
  (consoled (trace (update env w)) = [] ∨
   truthy (get_field (options w) "debug") = true ∧
   ∃ m, consoled (trace (update env w)) =
          [("rtconfig/src/index.ts:222 Read the config error. %s", m)] ∧
        ("error", m) ∈ emitted (trace (update env w))) ∧
  (∀ ex : Exn, load_fails env w ex →
     is_Normal (result (update env w)) = true →
     truthy (get_field (options w) "debug") = true →
     consoled (trace (update env w)) =
       [("rtconfig/src/index.ts:222 Read the config error. %s", message ex)]).
Proof.
  destruct (try_block_notes env w) as [_ Hc].
  destruct (try_block_frame env w) as (_ & Ho & _).
  assert (get_field (options (state (try_block env w))) "debug" =
          get_field (options w) "debug") as Hd by (unfold get_field; by rewrite Ho).
  assert (∀ (ex : Exn) w1 tr,
    try_block env w = MkOutcome w1 tr (Throw ex) →
    consoled (trace (update env w)) =
      if is_Normal (result (update env w)) && truthy (get_field (options w) "debug")
      then [("rtconfig/src/index.ts:222 Read the config error. %s", message ex)] else []) as Hval.
  { intros ex w1 tr E. rewrite E in Hc, Hd. cbn [state trace] in Hc, Hd.
    rewrite (update_after_catch _ _ _ _ _ E), catch_block_value. cbn [trace result].
    rewrite !consoled_app, Hc, this_emit_consoled, Hd.
    destruct (is_Normal _); cbn [andb]; [destruct (truthy _)|]; done. }
  split.
  - destruct (try_block env w) as [w1 tr1 [[]|t]] eqn:E; cbn [trace state] in Hc, Hd.
    + left. rewrite (update_after_normal _ _ _ _ E). cbn [trace].
      by rewrite consoled_app, Hc.
    + destruct t as [ex| |].
      * rewrite (Hval ex w1 tr1 eq_refl).
        destruct (is_Normal (result (update env w))) eqn:En; [|by left].
        destruct (truthy (get_field (options w) "debug")) eqn:Et; [|by left].
        right. split; [done|]. exists (message ex). split; [done|].
        rewrite (update_catch_emitted _ _ _ _ _ E), catch_block_value. cbn [trace].
        rewrite (update_after_catch _ _ _ _ _ E), catch_block_value in En. cbn [result] in En.
        destruct (this_emit_emitted env "error" (message ex) w1) as [He|He].
        -- rewrite !emitted_app, He. apply elem_of_app. right. apply elem_of_app. left.
           by constructor.
        -- by rewrite He in En.
      * left. rewrite (update_after_nullish _ _ _ _ _ _ E eq_refl). done.
      * left. rewrite (update_after_nullish _ _ _ _ _ _ E eq_refl). done.
  - intros ex Hf Hn Hdebug.
    rewrite (Hval ex _ _ (try_block_load_fails_trace _ _ _ Hf)). by rewrite Hn, Hdebug.
Qed.

Lemma console_only_when_debugging_witness :
  consoled (trace (update (Sample.gone Sample.quiet) Edge.loaded_d)) =
    [("rtconfig/src/index.ts:222 Read the config error. %s",
      VStr "ENOENT: no such file or directory")].
Proof.
  destruct (console_only_when_debugging (Sample.gone Sample.quiet) Edge.loaded_d) as [_ H].
  apply (H Sample.enoent).
  - left. vm_compute. reflexivity.
  - vm_compute. reflexivity.
  - vm_compute. reflexivity.
Defined.

(** ** The instance and what [getJSON] returns *)



Lemma exposes_emit_intact w :
  exposes w → emit_intact w ↔ config w !! "emit" = None.
Proof.
  intros (Hw & Hin & Hout). unfold emit_intact. split.
  - intros Hp. destruct (config w !! "emit") as [v|] eqn:E; [|done].
    destruct (Hin "emit") as (d & Hd & _); [by rewrite E|]. congruence.
  - apply Hout.
Qed.








(** ** From one cycle to the next *)

(** A version of the file that has been parsed is not read again: as long
    as the stat reports the same timestamp, the following cycles do the
    stat and the timer and nothing else, even when the parsed value could
    not be merged or a listener threw. *)
Theorem version_parsed_once env env' w st content c :
  changed env w st →
  world_read env (filename_of w) = Normal content →
  result (parse env (filename_of w) content w) = Normal c →
  world_stat env' (filename_of w) = Normal st →
  update env' (state (update env w)) =
    MkOutcome (state (update env w))
      [StatSync (filename_of w); SetTimeout (get_field (options w) "interval")]
      (Normal tt).
Proof.
  intros H Hr Hp Hs'.
  assert (parses_file env w st) as Hpf by (split; [done|]; by exists content, c).
  pose proof (parsed_stores_options _ _ _ Hpf) as Ho.
  pose proof (update_filename env w) as Hf.
  assert (strict_equal_number (modifyTime_of (state (update env w))) (mtime st) = true) as He.
  { unfold modifyTime_of, get_field. rewrite Ho, lookup_insert_eq. cbn.
    by apply bool_decide_eq_true. }
  rewrite <- Hf in Hs'.
  rewrite (update_after_normal _ _ _ _ (try_block_unchanged _ _ _ Hs' He)).
  rewrite Hf. unfold get_field at 1. by rewrite Ho, lookup_insert_ne.
Qed.

Lemma version_parsed_once_witness :
  update (Edge.emptied Sample.quiet) (state (update (Edge.emptied Sample.quiet) Sample.loaded_h)) =
    MkOutcome (state (update (Edge.emptied Sample.quiet) Sample.loaded_h))
      [StatSync (VStr "app.yaml"); SetTimeout (VNum 60000)] (Normal tt).
Proof.
  apply (version_parsed_once (Edge.emptied Sample.quiet) (Edge.emptied Sample.quiet)
           Sample.loaded_h {| mtime := 3000 |} EmptyString VUndefined).
  - split; vm_compute; reflexivity.
  - vm_compute. reflexivity.
  - vm_compute. reflexivity.
  - vm_compute. reflexivity.
Defined.

(** A cycle whose stat, read or parse throws leaves the whole instance as
    it was, options, configuration, properties and listeners; so the next
    cycle in the same world does and reports the same again. *)
Theorem failed_load_is_retried env w ex :
  load_fails env w ex →
  state (update env w) = w ∧
  update env (state (update env w)) = update env w.
Proof.
  intros Hf. destruct (try_block_load_fails _ _ _ Hf) as (tr & E & _).
  assert (state (update env w) = w) as Hs by (by rewrite update_state, E).
  split; [exact Hs|by rewrite Hs].
Qed.

Lemma failed_load_is_retried_witness :
  state (update (Sample.broken Sample.quiet) Sample.loaded_h) = Sample.loaded_h.
Proof.
  apply (failed_load_is_retried (Sample.broken Sample.quiet) Sample.loaded_h Sample.bad_yaml).
  right. right. exists {| mtime := 3000 |}, "host: [".
  split_and!; [split| |]; vm_compute; reflexivity.
Defined.

(** A reload that visits no key named [emit] leaves [emit] the method it
    was. *)
Lemma reload_emit_intact env w st c keys :
  Reachable w →
  reloads env w st c →
  Object_keys c = Normal keys →
  emit_intact w →
  "emit" ∉ keys →
  emit_intact (state (update env w)).
Proof.
  intros Hw Hr Hk Hi Hn.
  apply exposes_emit_intact; [by apply reachable_exposes, Reachable_update|].
  apply (exposes_emit_intact _ (reachable_exposes _ Hw)) in Hi.
  destruct (reload_stores _ _ _ _ _ Hr Hk) as [_ ->]. by rewrite merge_other.
Qed.

(** A parsed value without keys of its own (a number, a boolean, an empty
    object) is taken as a successful reload: the timestamp is stored and,
    when no configuration key has replaced [emit], the [update] event
    carries the value, but the configuration is left as it was. *)
Theorem value_without_keys_merges_nothing env w st c :
  Reachable w →
  reloads env w st c →
  Object_keys c = Normal [] →
  emit_intact w →
  config (state (update env w)) = config w ∧
  modifyTime_of (state (update env w)) = Number (mtime st) ∧
  ∃ rest, emitted (trace (update env w)) = ("update", c) :: rest.
Proof.
  intros Hw Hr Hk Hi.
  destruct (reload_stores _ _ _ _ _ Hr Hk) as [Ho Hc].
  split_and!; [by rewrite Hc| |].
  - unfold modifyTime_of, get_field. by rewrite Ho, lookup_insert_eq.
  - assert (emit_intact (state (update env w))) as Hi'.
    { eapply reload_emit_intact; [done..|]. by intros ?%elem_of_nil. }
    destruct (reload_emitted _ _ _ _ (reachable_redefinable _ Hw) Hr)
      as [[_ Hn]|[[-> _]|(ex & _ & ->)]]; [done|eauto|eauto].
Qed.

Lemma value_without_keys_merges_nothing_witness :
  config (state (update (Edge.scalar Sample.quiet) Sample.loaded)) = config Sample.loaded ∧
  modifyTime_of (state (update (Edge.scalar Sample.quiet) Sample.loaded)) = VNum 3000 ∧
  ∃ rest, emitted (trace (update (Edge.scalar Sample.quiet) Sample.loaded)) =
            ("update", VNum 42) :: rest.
Proof.
  apply (value_without_keys_merges_nothing (Edge.scalar Sample.quiet) Sample.loaded
           {| mtime := 3000 |} (VNum 42)).
  - apply Reachable_update, Reachable_new.
  - split; [split; vm_compute; reflexivity|].
    exists "42". split_and!; [vm_compute; reflexivity ..|by eexists].
  - reflexivity.
  - vm_compute. reflexivity.
Defined.

(** ** Keys that replace the methods of the instance *)






(** ** What polling never changes *)



(** Without an [interval] among the options, every timer the instance ever
    starts, in its constructor or in a later cycle, has a delay of 60000. *)
Theorem default_interval env envs filename opts d :
  default ∅ opts !! "interval" = None →
  d ∈ timers (trace (new_RealtimeConfig env filename opts)) ∨
  d ∈ timers (trace (poll envs (state (new_RealtimeConfig env filename opts)))) →
  d = VNum 60000.
Proof.
  intros Hn.
  assert (get_field (options (state (initialize filename opts blank))) "interval" = VNum 60000)
    as Hi.
  { rewrite initialize_state. unfold get_field. cbn. unfold Object_assign.
    rewrite lookup_union_r by done. by rewrite lookup_insert_eq. }
  rewrite new_RealtimeConfig_update. intros [Hd|Hd].
  - apply update_timers in Hd. by rewrite Hd.
  - apply poll_timers in Hd. rewrite Hd. unfold get_field in *.
    by rewrite update_options.
Qed.

Lemma default_interval_witness :
  Forall (λ d, d = VNum 60000)
    (timers (trace (poll [Sample.second Sample.quiet; Sample.older Sample.quiet]
                      (state Sample.born)))).
Proof.
  apply Forall_forall. intros d Hd.
  apply (default_interval (Sample.first Sample.quiet)
           [Sample.second Sample.quiet; Sample.older Sample.quiet] (VStr "app.yaml") None d).
  - cbn. apply lookup_empty.
  - right. exact Hd.
Defined.

(** ** The constructor *)

(** The first stat is compared with 0: a file whose modification timestamp
    is the epoch is not loaded by the constructor, which leaves an empty
    configuration and emits nothing. *)
Theorem epoch_timestamp_is_not_loaded env filename opts st :
  default ∅ opts !! "modifyTime" = None →
  world_stat env (filename_of (state (initialize filename opts blank))) = Normal st →
  mtime st = 0 →
  getJSON (state (new_RealtimeConfig env filename opts)) = ∅ ∧
  emitted (trace (new_RealtimeConfig env filename opts)) = [] ∧
  reads (trace (new_RealtimeConfig env filename opts)) = [] ∧
  result (new_RealtimeConfig env filename opts) = Normal tt.
Proof.
  intros Hn Hs H0.
  assert (strict_equal_number (modifyTime_of (state (initialize filename opts blank)))
            (mtime st) = true) as He.
  { rewrite initialize_state. unfold modifyTime_of, get_field. cbn. unfold Object_assign.
    rewrite lookup_union_r by done.
    rewrite lookup_insert_ne by done. rewrite lookup_insert_eq. cbn.
    by apply bool_decide_eq_true. }
  rewrite new_RealtimeConfig_update.
  rewrite (update_after_normal _ _ _ _ (try_block_unchanged _ _ _ Hs He)).
  cbn [state trace result]. split_and!; try done.
  unfold getJSON. by rewrite initialize_state.
Qed.

Lemma epoch_timestamp_is_not_loaded_witness :
  getJSON (state (new_RealtimeConfig (Edge.epoch Sample.quiet) (VStr "app.yaml") None)) = ∅ ∧
  emitted (trace (new_RealtimeConfig (Edge.epoch Sample.quiet) (VStr "app.yaml") None)) = [].
Proof.
  destruct (epoch_timestamp_is_not_loaded (Edge.epoch Sample.quiet) (VStr "app.yaml") None
              {| mtime := 0 |}) as (H1 & H2 & _).
  - cbn. apply lookup_empty.
  - vm_compute. reflexivity.
  - reflexivity.
  - split; [exact H1|exact H2].
Defined.


